(** * Article hierarchy engine: a shallow embedding and its properties

    The definitions below follow [src/lib/api.ts] (the categorized
    hierarchy, [updateStatus], [generateSlug], [formatRelativeTime]), the
    article list page ([fetchArticles], [toggleExpanded], [expandAll],
    [HierarchicalTableView], [TableView], the completeness bar), the
    categories page ([fetchCategories]) and the article page
    ([fetchRelatedArticles]).  JavaScript objects that are shared and
    mutated (the nodes of the root tree) live in an explicit store keyed by
    article id; everything else is a pure function on lists and maps. *)

From Stdlib Require Import ZArith QArith Qround Lia Ascii.
From stdpp Require Import base option list sorting gmap strings pretty.

Local Open Scope string_scope.
Local Open Scope list_scope.
Local Open Scope Z_scope.

#[local] Set Warnings "-clear-no-such-hyp".

(** ** JavaScript values *)

(** A column that may be missing from the row ([undefined]), hold SQL
    [NULL] ([null]) or hold a value.  Strict equality [===] on two such
    values is Leibniz equality of this type. *)
Inductive nullable (A : Type) : Type :=
  | Undefined
  | Null
  | Val (a : A).
Arguments Undefined {A}.
Arguments Null {A}.
Arguments Val {A} a.

#[global] Instance nullable_eq_dec {A} `{EqDecision A} : EqDecision (nullable A).
Proof. solve_decision. Defined.

(** Truthiness of an optional string: [undefined], [null] and [""] are
    falsy. *)
Definition truthy (v : nullable string) : bool :=
  match v with
  | Val s => if decide (s = "") then false else true
  | _ => false
  end.

Inductive Status : Type := draft | published.

#[global] Instance Status_eq_dec : EqDecision Status.
Proof. solve_decision. Defined.

Definition statusName (s : Status) : string :=
  match s with draft => "draft" | published => "published" end.

(** ** Articles *)

(** [interface Article].  Timestamps are carried as the epoch milliseconds
    that [new Date(s).getTime()] yields for the stored ISO string. *)
Record Article : Type := mkArticle {
  id : string;
  title : string;
  slug : string;
  content : string;
  category : nullable string;
  status : Status;
  parentId : nullable string;
  createdAt : Z;
  updatedAt : Z;
  publishedAt : nullable Z;
  authorId : nullable string;
  featuredImage : nullable string;
  imageAlt : nullable string
}.

#[global] Instance Article_eq_dec : EqDecision Article.
Proof. solve_decision. Defined.

(** An article with its [children] array attached. *)
#[warnings="-register-all"]
Inductive Node : Type :=
  | mkNode (article : Article) (children : list Node).

Definition node_article (n : Node) : Article :=
  match n with mkNode a _ => a end.

Definition node_children (n : Node) : list Node :=
  match n with mkNode _ cs => cs end.

(** Every node of a tree, the tree's own root first. *)
Fixpoint nodes (n : Node) : list Node :=
  match n with
  | mkNode _ cs => n :: flat_map nodes cs
  end.

(** Every sibling sequence below a node: its [children] array and, in
    turn, those of its descendants. *)
Fixpoint levels (n : Node) : list (list Node) :=
  match n with
  | mkNode _ cs => cs :: flat_map levels cs
  end.

(** ** [Array.prototype.sort] *)

Section Sort.
Context {A : Type} (cmp : A → A → Z).

(** [x] stood before every element of the sorted [l]; it moves right
    only past elements the comparator puts strictly first, so equal
    elements keep their order (the sort is stable). *)
Fixpoint sort_insert (x : A) (l : list A) : list A :=
  match l with
  | [] => [x]
  | y :: l' => if 0 <? cmp x y then y :: sort_insert x l' else x :: l
  end.

Definition sort (l : list A) : list A := foldr sort_insert [] l.
End Sort.

(** ** The categorized hierarchy ([articleAPI.getCategorizedHierarchy]) *)

(** The comparator handed to [sort]:
    [new Date(b.createdAt).getTime() - new Date(a.createdAt).getTime()]. *)
Definition newestFirst (a b : Node) : Z :=
  createdAt (node_article b) - createdAt (node_article a).

(** [buildHierarchy(articles, parentId = null)].  The recursion follows
    the data, so it is bounded here by [fuel]; [None] means the bound was
    reached. *)
Fixpoint buildHierarchy (fuel : nat) (articles : list Article)
    (parent : nullable string) : option (list Node) :=
  match fuel with
  | O => None
  | S fuel' =>
      sort newestFirst
        <$> mapM (λ a, mkNode a <$> buildHierarchy fuel' articles (Val (id a)))
              (filter (λ a, parentId a = parent) articles)
  end.

(** [article.category || 'Uncategorized'] *)
Definition categoryKey (a : Article) : string :=
  match category a with
  | Val c => if decide (c = "") then "Uncategorized" else c
  | _ => "Uncategorized"
  end.

(** Names every object literal inherits from [Object.prototype]: reading
    one of them from [{}] yields a truthy value that has no [push]. *)
Definition objectPrototypeKeys : list string :=
  [ "constructor"; "__defineGetter__"; "__defineSetter__"; "hasOwnProperty";
    "__lookupGetter__"; "__lookupSetter__"; "isPrototypeOf";
    "propertyIsEnumerable"; "toString"; "valueOf"; "__proto__";
    "toLocaleString" ].

(** One round of the grouping loop; [None] is the [TypeError] of calling
    [push] on an inherited property. *)
Definition groupStep (acc : option (gmap string (list Article))) (a : Article)
    : option (gmap string (list Article)) :=
  categorized ← acc;
  match categorized !! categoryKey a with
  | Some bucket => Some (<[categoryKey a := bucket ++ [a]]> categorized)
  | None =>
      if decide (categoryKey a ∈ objectPrototypeKeys) then None
      else Some (<[categoryKey a := [a]]> categorized)
  end.

Definition groupByCategory (articles : list Article)
    : option (gmap string (list Article)) :=
  foldl groupStep (Some ∅) articles.

(** How a call ends: with a value, with a thrown error, or, for the
    bounded recursion, without an answer within the fuel given. *)
Inductive jsError : Type := TypeError.

Inductive outcome (A : Type) : Type :=
  | Returns (a : A)
  | Throws (e : jsError)
  | OutOfFuel.
Arguments Returns {A} a.
Arguments Throws {A} e.
Arguments OutOfFuel {A}.

(** Grouping, then [buildHierarchy] on every bucket. *)
Definition getCategorizedHierarchy (fuel : nat) (articles : list Article)
    : outcome (gmap string (list Node)) :=
  match groupByCategory articles with
  | None => Throws TypeError
  | Some categorized =>
      let built := (λ bucket, buildHierarchy fuel bucket Null) <$> categorized in
      if decide (map_Forall (λ _ r, is_Some r) built)
      then Returns (omap (λ r, r) built)
      else OutOfFuel
  end.

(** What a bucket must hold: the articles of its key, in input order; a
    key without an article has no bucket. *)
Definition bucketOf (c : string) (l : list Article) : option (list Article) :=
  match filter (λ a, categoryKey a = c) l with
  | [] => None
  | bucket => Some bucket
  end.

(** Orderings of a sibling sequence by creation time. *)
Definition descending {A} (key : A → Z) (x y : A) : Prop := key y ≤ key x.

Definition notOlder (m n : Node) : Prop :=
  createdAt (node_article n) ≤ createdAt (node_article m).

Definition strictlyNewer (m n : Node) : Prop :=
  createdAt (node_article n) < createdAt (node_article m).

(** The articles found in a forest, every position counted. *)
Definition articlesOf (forest : list Node) : list Article :=
  node_article <$> flat_map nodes forest.

(** ** The root tree ([fetchArticles]) *)

(** A node object of [articleMap]: the copied article and its [children]
    array.  The array holds references to node objects; an object is
    identified by the key it is stored under. *)
Record TreeNode : Type := mkTreeNode {
  nodeArticle : Article;
  childRefs : list string
}.

(** The two variables of the hierarchy pass. *)
Record Build : Type := mkBuild {
  articleMap : gmap string TreeNode;
  rootArticles : list string
}.

(** First pass: [articleMap.set(article.id, { ...article, children: [] })]. *)
Definition firstPass (fetched : list Article) : gmap string TreeNode :=
  foldl (λ m a, <[id a := mkTreeNode a []]> m) ∅ fetched.

(** [article.parentId && articleMap.has(article.parentId)]: the parent's
    key when the test passes. *)
Definition validParent (m : gmap string TreeNode) (a : Article) : option string :=
  match parentId a with
  | Val p =>
      if truthy (parentId a) && bool_decide (is_Some (m !! p))
      then Some p else None
  | _ => None
  end.

(** [parent.children!.push(child)] *)
Definition pushChild (parent : TreeNode) (child : string) : TreeNode :=
  mkTreeNode (nodeArticle parent) (childRefs parent ++ [child]).

(** One round of the second pass.  Every [articleMap.get(...)!] is a
    lookup that must succeed; [None] stands for a violated non-null
    assertion. *)
Definition secondPassStep (acc : option Build) (a : Article) : option Build :=
  b ← acc;
  match validParent (articleMap b) a with
  | Some p =>
      parent ← articleMap b !! p;
      _ ← articleMap b !! id a;
      Some (mkBuild (<[p := pushChild parent (id a)]> (articleMap b))
                    (rootArticles b))
  | None =>
      _ ← articleMap b !! id a;
      Some (mkBuild (articleMap b) (rootArticles b ++ [id a]))
  end.

(** The hierarchy part of [fetchArticles]: both passes over the fetched
    rows. *)
Definition fetchArticles (fetched : list Article) : option Build :=
  foldl secondPassStep (Some (mkBuild (firstPass fetched) [])) fetched.

(** The tree a renderer sees when it follows [children] from a list of
    node references; [None] when it is deeper than [fuel] or a reference
    is dangling. *)
Fixpoint readTree (fuel : nat) (m : gmap string TreeNode) (refs : list string)
    : option (list Node) :=
  match fuel with
  | O => None
  | S fuel' =>
      mapM (λ r, n ← m !! r;
                 mkNode (nodeArticle n) <$> readTree fuel' m (childRefs n)) refs
  end.


(** Where the second pass puts an article: at the top level ([Null]) or
    under the node of key [p] ([Val p]). *)
Definition placedBy (fetched : list Article) (k : nullable string) (a : Article)
    : Prop :=
  match k with
  | Null => validParent (firstPass fetched) a = None
  | Val p => validParent (firstPass fetched) a = Some p
  | Undefined => False
  end.

#[global] Instance placedBy_dec fetched k a : Decision (placedBy fetched k a).
Proof. destruct k; simpl; apply _. Defined.

(** The node stored under key [i] once the articles of [l] went through
    the second pass: its children are the ids of the articles of [l]
    placed under [i], in order. *)
Definition nodeAfter (fetched l : list Article) (i : string) (n : TreeNode)
    : TreeNode :=
  mkTreeNode (nodeArticle n) (id <$> filter (placedBy fetched (Val i)) l).




(** ** The common shape of both builders *)

(** Both builders hang under every node the articles that a placement
    rule [placed] assigns to its key, and may rearrange each sibling
    sequence. *)
Section Grow.
Context (placed : nullable string → Article → Prop)
        `{∀ k a, Decision (placed k a)}.
Context (arrange : list Node → list Node).
Context (universe : list Article).

Definition kids (k : nullable string) : list Article :=
  filter (placed k) universe.

Fixpoint grow (fuel : nat) (k : nullable string) : option (list Node) :=
  match fuel with
  | O => None
  | S fuel' =>
      arrange <$> mapM (λ a, mkNode a <$> grow fuel' (Val (id a))) (kids k)
  end.

(** The articles directly under the nodes of [X]. *)
Definition below (X : list Article) : list Article :=
  flat_map (λ a, kids (Val (id a))) X.

(** The [n]-th generation under [X], and the first [n] generations
    together. *)
Fixpoint generation (n : nat) (X : list Article) : list Article :=
  match n with
  | O => X
  | S n' => generation n' (below X)
  end.

Fixpoint reach (n : nat) (X : list Article) : list Article :=
  match n with
  | O => []
  | S n' => X ++ reach n' (below X)
  end.

(** The placement chain of [a] ends at the top level within [n] steps. *)
Fixpoint rooted (n : nat) (a : Article) : Prop :=
  placed Null a ∨
  match n with
  | O => False
  | S n' => ∃ b, b ∈ universe ∧ placed (Val (id b)) a ∧ rooted n' b
  end.
End Grow.

(** The placement rule of [buildHierarchy]: an article goes under the key
    its [parentId] is strictly equal to. *)
Definition placedUnder (k : nullable string) (a : Article) : Prop :=
  parentId a = k.

#[global] Instance placedUnder_dec k a : Decision (placedUnder k a).
Proof. unfold placedUnder. apply _. Defined.

(** ** Expansion state ([toggleExpanded]) *)

Definition toggleExpanded (expandedNodes : gset string) (nodeId : string)
    : gset string :=
  if decide (nodeId ∈ expandedNodes)
  then expandedNodes ∖ {[nodeId]}
  else expandedNodes ∪ {[nodeId]}.

(** ** The table view ([TableView]) *)

(** [String.prototype.includes] *)
Fixpoint includes (s sub : string) : bool :=
  String.prefix sub s ||
  match s with
  | EmptyString => false
  | String _ s' => includes s' sub
  end.

(** [Array.prototype.slice(start, end)]: negative indices count from the
    end, both are clamped to the array. *)
Definition relativeIndex (len k : Z) : Z :=
  if k <? 0 then Z.max (len + k) 0 else Z.min k len.

Definition slice {A} (start finish : Z) (l : list A) : list A :=
  let len := Z.of_nat (length l) in
  let from := relativeIndex len start in
  let to := relativeIndex len finish in
  take (Z.to_nat (to - from)) (drop (Z.to_nat from) l).

(** The state the table view reads. *)
Record ListState : Type := mkListState {
  articles : list Node;
  searchQuery : string;
  selectedCategory : string;
  statusFilter : string;
  currentPage : Z;
  itemsPerPage : Z
}.




Inductive PageButton : Type := FirstPage | PreviousPage | NextPage | LastPage.

Definition initialState (roots : list Node) : ListState :=
  mkListState roots "" "all" "all" 1 10.

Section TableView.
(** [String.prototype.toLowerCase], left to the runtime. *)
Context (toLowerCase : string → string).

Definition matchesFilters (st : ListState) (n : Node) : bool :=
  let article := node_article n in
  let matchesSearch :=
    includes (toLowerCase (title article)) (toLowerCase (searchQuery st)) ||
    includes (toLowerCase (content article)) (toLowerCase (searchQuery st)) in
  let matchesCategory :=
    bool_decide (selectedCategory st = "all") ||
    bool_decide (category article = Val (selectedCategory st)) in
  let matchesStatus :=
    bool_decide (statusFilter st = "all") ||
    bool_decide (statusName (status article) = statusFilter st) in
  matchesSearch && matchesCategory && matchesStatus.

Definition filteredArticles (st : ListState) : list Node :=
  filter (λ n, matchesFilters st n = true) (articles st).

(** [Math.ceil(filteredArticles.length / itemsPerPage)].  The quotient
    of two array-sized integers is exact before rounding up, so it is
    taken in the rationals.  (Only meant for a positive page size: the
    rationals give 0 for a division by zero, the runtime [NaN].) *)
Definition totalPages (st : ListState) : Z :=
  Qceiling (inject_Z (Z.of_nat (length (filteredArticles st)))
            / inject_Z (itemsPerPage st)).

Definition paginatedArticles (st : ListState) : list Node :=
  slice ((currentPage st - 1) * itemsPerPage st)
        (currentPage st * itemsPerPage st)
        (filteredArticles st).


Definition setCurrentPage (st : ListState) (page : Z) : ListState :=
  mkListState (articles st) (searchQuery st) (selectedCategory st)
              (statusFilter st) page (itemsPerPage st).

(** The paging bar is rendered when there is more than one page; the
    first two buttons are disabled on page 1, the last two on the last
    page.  [None]: the button cannot be pressed. *)
Definition pressButton (st : ListState) (b : PageButton) : option ListState :=
  if negb (1 <? totalPages st) then None else
  match b with
  | FirstPage =>
      if decide (currentPage st = 1) then None
      else Some (setCurrentPage st 1)
  | PreviousPage =>
      if decide (currentPage st = 1) then None
      else Some (setCurrentPage st (Z.max 1 (currentPage st - 1)))
  | NextPage =>
      if decide (currentPage st = totalPages st) then None
      else Some (setCurrentPage st (Z.min (totalPages st) (currentPage st + 1)))
  | LastPage =>
      if decide (currentPage st = totalPages st) then None
      else Some (setCurrentPage st (totalPages st))
  end.

(** The page shown lies among the pages that exist. *)
Definition pageInRange (st : ListState) : Prop :=
  1 ≤ currentPage st ≤ totalPages st.
End TableView.

(** A stand-in for [toLowerCase] on ASCII text, for worked examples. *)
Definition asciiLowerChar (c : Ascii.ascii) : Ascii.ascii :=
  let n := Ascii.nat_of_ascii c in
  if ((65 <=? n) && (n <=? 90))%nat then Ascii.ascii_of_nat (n + 32) else c.

Fixpoint asciiLowerCase (s : string) : string :=
  match s with
  | EmptyString => EmptyString
  | String c s' => String (asciiLowerChar c) (asciiLowerCase s')
  end.

(** ** Status change ([articleAPI.updateStatus]) *)

(** The [updateData] object: the only two columns it names. *)
Record StatusUpdate : Type := mkStatusUpdate {
  newStatus : Status;
  newPublishedAt : nullable Z
}.

(** [{ status }], then [publishedAt] set to the current time when
    publishing and to [null] otherwise. *)
Definition updateData (now : Z) (st : Status) : StatusUpdate :=
  mkStatusUpdate st (if decide (st = published) then Val now else Null).

Definition applyUpdate (u : StatusUpdate) (row : Article) : Article :=
  {| id := id row; title := title row; slug := slug row;
     content := content row; category := category row;
     status := newStatus u; parentId := parentId row;
     createdAt := createdAt row; updatedAt := updatedAt row;
     publishedAt := newPublishedAt u; authorId := authorId row;
     featuredImage := featuredImage row; imageAlt := imageAlt row |}.

(** Modelled from the spec: the persistence collaborator's update-by-id
    ([.update(updateData).eq('id', id).select().single()], whose code is
    in the database client and server).  The columns of the payload are
    written to the rows whose [id] matches; the call succeeds with the
    updated row when exactly one row matched, and otherwise fails and
    leaves the table as it was. *)
Definition updateById (u : StatusUpdate) (key : string) (table : list Article)
    : list Article * option Article :=
  match filter (λ row, id row = key) table with
  | [row] =>
      ((λ r, if decide (id r = key) then applyUpdate u r else r) <$> table,
       Some (applyUpdate u row))
  | _ => (table, None)
  end.

(** [updateStatus(id, status)] at time [now], on the stored rows: the new
    table, and the returned article or [None] for the thrown error. *)
Definition updateStatus (now : Z) (key : string) (st : Status)
    (table : list Article) : list Article * option Article :=
  updateById (updateData now st) key table.

(** The columns [updateStatus] must leave alone. *)
Definition sameContent (row row' : Article) : Prop :=
  id row' = id row ∧ title row' = title row ∧ slug row' = slug row ∧
  content row' = content row ∧ category row' = category row ∧
  parentId row' = parentId row ∧ createdAt row' = createdAt row ∧
  authorId row' = authorId row ∧ featuredImage row' = featuredImage row ∧
  imageAlt row' = imageAlt row.

(** ** Worked inputs *)

Definition sampleArticle (i : string) (c p : nullable string) (t : Z) : Article :=
  {| id := i; title := i; slug := i; content := ""; category := c;
     status := draft; parentId := p; createdAt := t; updatedAt := t;
     publishedAt := Null; authorId := Null; featuredImage := Null;
     imageAlt := Null |}.

(** Scenario A: a child and its parent. *)
Definition scenarioA : list Article :=
  [ sampleArticle "1" (Val "News") Null 0;
    sampleArticle "2" (Val "News") (Val "1") 0 ].

(** Scenario B: a record whose parent is missing. *)
Definition scenarioB : list Article :=
  [ sampleArticle "1" Null (Val "missing") 0 ].

(** Scenario C: a child whose parent lives in another category. *)
Definition scenarioC : list Article :=
  [ sampleArticle "1" (Val "A") Null 0; sampleArticle "2" (Val "B") (Val "1") 0 ].

(** Scenario D: one draft, searched for "foo" among the published. *)
Definition scenarioD : ListState :=
  mkListState [mkNode (sampleArticle "1" (Val "News") Null 0) []]
              "foo" "all" "published" 1 10.

(** Eleven drafts: two pages of ten. *)
Definition elevenDrafts : list Node :=
  (λ i, mkNode (sampleArticle i (Val "News") Null 0) []) <$>
  ["1"; "2"; "3"; "4"; "5"; "6"; "7"; "8"; "9"; "10"; "11"].

(** The table on its second page. *)
Definition secondPage : ListState :=
  mkListState elevenDrafts "" "all" "all" 2 10.

(** A two-row store for the status change. *)
Definition statusTable : list Article :=
  [ sampleArticle "1" (Val "News") Null 0; sampleArticle "2" (Val "News") (Val "1") 0 ].

(** ** Slugs ([generateSlug]) *)

(** The class [[a-z0-9]].  Characters beyond ASCII are outside it however
    the string is encoded, so a run of them is a run in any encoding. *)
Definition isSlugChar (c : Ascii.ascii) : bool :=
  let n := Ascii.nat_of_ascii c in
  (((97 <=? n) && (n <=? 122)) || ((48 <=? n) && (n <=? 57)))%nat.

Definition isDash (c : Ascii.ascii) : bool :=
  bool_decide (c = "-"%char).

(** [.replace(/[^a-z0-9]+/g, '-')]: every maximal run of characters
    outside the class becomes one dash; [inRun] tells that the run in
    progress has already been replaced. *)
Fixpoint replaceRuns (inRun : bool) (s : string) : string :=
  match s with
  | EmptyString => EmptyString
  | String c s' =>
      if isSlugChar c then String c (replaceRuns false s')
      else if inRun then replaceRuns true s'
      else String "-" (replaceRuns true s')
  end.

(** [.replace(/(^-|-$)/g, '')]: one dash at the very start and one at the
    very end are removed. *)
Definition dropLeadingDash (s : string) : string :=
  match s with
  | String c s' => if isDash c then s' else s
  | EmptyString => EmptyString
  end.

Fixpoint dropTrailingDash (s : string) : string :=
  match s with
  | EmptyString => EmptyString
  | String c EmptyString => if isDash c then EmptyString else s
  | String c s' => String c (dropTrailingDash s')
  end.

(** The letters and digits of a string, in order. *)
Fixpoint slugChars (s : string) : list Ascii.ascii :=
  match s with
  | EmptyString => []
  | String c s' => if isSlugChar c then c :: slugChars s' else slugChars s'
  end.

(** Shape of a slug: only letters, digits and dashes; no dash at either
    end and no two dashes in a row. *)
Fixpoint onlySlugOrDash (s : string) : bool :=
  match s with
  | EmptyString => true
  | String c s' => (isSlugChar c || isDash c) && onlySlugOrDash s'
  end.

Definition startsWithDash (s : string) : bool :=
  match s with
  | String c _ => isDash c
  | EmptyString => false
  end.

Fixpoint endsWithDash (s : string) : bool :=
  match s with
  | EmptyString => false
  | String c EmptyString => isDash c
  | String _ s' => endsWithDash s'
  end.

Fixpoint noDoubleDash (s : string) : bool :=
  match s with
  | EmptyString => true
  | String c s' => negb (isDash c && startsWithDash s') && noDoubleDash s'
  end.

Definition wellFormedSlug (s : string) : bool :=
  onlySlugOrDash s && noDoubleDash s
  && negb (startsWithDash s) && negb (endsWithDash s).

Section Slug.
(** [String.prototype.toLowerCase], left to the runtime. *)
Context (toLowerCase : string → string).

Definition generateSlug (title : string) : string :=
  dropTrailingDash (dropLeadingDash (replaceRuns false (toLowerCase title))).
End Slug.

(** ** Relative times ([formatRelativeTime]) *)

Section RelativeTime.
(** [formatDate], which hands the date to [toLocaleDateString]. *)
Context (formatDate : Z → string).

(** [formatRelativeTime(dateString)] when the clock reads [now]; both
    instants in epoch milliseconds.  [Math.floor] of the quotient is the
    floored division of [Z]. *)
Definition formatRelativeTime (now date : Z) : string :=
  let diffInHours := (now - date) `div` (1000 * 60 * 60) in
  if diffInHours <? 1 then "Just now"
  else if diffInHours <? 24 then
    pretty diffInHours +:+ " hour" +:+ (if 1 <? diffInHours then "s" else "")
      +:+ " ago"
  else if diffInHours <? 24 * 7 then
    let days := diffInHours `div` 24 in
    pretty days +:+ " day" +:+ (if 1 <? days then "s" else "") +:+ " ago"
  else formatDate date.
End RelativeTime.

(** ** Completeness bar ([getProgressPercentage], [getProgressColor]) *)

Definition getProgressColor (progress : Z) : string :=
  if 80 <=? progress then "bg-green-500"
  else if 60 <=? progress then "bg-yellow-500"
  else if 40 <=? progress then "bg-orange-500"
  else "bg-red-500".

Section Progress.
(** [String.prototype.length]: the number of UTF-16 code units, left to
    the runtime. *)
Context (codeUnits : string → Z).

(** The four tests of [getProgressPercentage], each worth 25. *)
Definition hasTitle (a : Article) : bool :=
  negb (bool_decide (title a = "")).

Definition hasLongContent (a : Article) : bool :=
  negb (bool_decide (content a = "")) && (100 <? codeUnits (content a)).

Definition getProgressPercentage (article : Article) : Z :=
  let progress := 0 in
  let progress := if hasTitle article then progress + 25 else progress in
  let progress := if hasLongContent article then progress + 25 else progress in
  let progress := if truthy (category article) then progress + 25 else progress in
  let progress := if truthy (featuredImage article) then progress + 25 else progress in
  progress.

(** How many of the four tests an article passes. *)
Definition criteriaMet (a : Article) : Z :=
  Z.b2z (hasTitle a) + Z.b2z (hasLongContent a)
  + Z.b2z (truthy (category a)) + Z.b2z (truthy (featuredImage a)).
End Progress.


(** ** Expanding and collapsing everything ([expandAll], [collapseAll]) *)

(** [collectIds]: the id of a node, then those of its children. *)
Fixpoint collectIds (n : Node) : list string :=
  match n with
  | mkNode a cs => id a :: flat_map collectIds cs
  end.

(** [expandAll] builds a fresh set from the tree; what was expanded
    before plays no part. *)
Definition expandAll (roots : list Node) : gset string :=
  list_to_set (flat_map collectIds roots).

Definition collapseAll : gset string := ∅.

(** ** Rows of the hierarchical table ([HierarchicalTableView]) *)

(** [renderTableRow(article, level)]: the row of the article, then, when
    it has children and is expanded, the rows of its children one level
    down. *)
Fixpoint renderTableRow (expandedNodes : gset string) (level : nat) (n : Node)
    {struct n} : list (Article * nat) :=
  match n with
  | mkNode a cs =>
      (a, level) ::
      (if bool_decide (cs ≠ []) && bool_decide (id a ∈ expandedNodes)
       then flat_map (renderTableRow expandedNodes (S level)) cs
       else [])
  end.

(** [articles.map(article => renderTableRow(article))] *)
Definition tableRows (expandedNodes : gset string) (roots : list Node)
    : list (Article * nat) :=
  flat_map (renderTableRow expandedNodes 0) roots.

(** ** Category options ([uniqueCategories]) *)

(** [.map(a => a.category).filter(Boolean)] keeps the non-empty
    categories. *)
Definition truthyCategory (a : Article) : option string :=
  match category a with
  | Val c => if decide (c = "") then None else Some c
  | _ => None
  end.

(** [Set.prototype.add] on a set kept in insertion order. *)
Definition setAdd (members : list string) (x : string) : list string :=
  if decide (x ∈ members) then members else members ++ [x].

(** [[...new Set(...)]] *)
Definition uniqueCategories (fetched : list Article) : list string :=
  foldl setAdd [] (omap truthyCategory fetched).

(** ** The categories page ([fetchCategories]) *)

Record ArticleRef : Type := mkArticleRef {
  refId : string;
  refTitle : string;
  refCreatedAt : Z
}.

(** [interface CategoryStats]; the [Map] holding them is kept as the list
    of its values in insertion order, one per name. *)
Record CategoryStats : Type := mkCategoryStats {
  statsName : string;
  statsCount : Z;
  statsArticles : list ArticleRef
}.

(** One round of the grouping loop: create the entry when the name is
    new, then count the article and push its reference. *)
Definition countArticle (categoryMap : list CategoryStats) (a : Article)
    : list CategoryStats :=
  let categoryName := categoryKey a in
  let categoryMap :=
    if decide (categoryName ∈ statsName <$> categoryMap) then categoryMap
    else categoryMap ++ [mkCategoryStats categoryName 0 []] in
  (λ c, if decide (statsName c = categoryName)
        then mkCategoryStats (statsName c) (statsCount c + 1)
               (statsArticles c ++ [mkArticleRef (id a) (title a) (createdAt a)])
        else c) <$> categoryMap.

Definition sortArticles (c : CategoryStats) : CategoryStats :=
  mkCategoryStats (statsName c) (statsCount c)
    (sort (λ x y, refCreatedAt y - refCreatedAt x) (statsArticles c)).

(** Group, sort each category's articles newest first, sort the
    categories by falling count. *)
Definition fetchCategories (fetched : list Article) : list CategoryStats :=
  sort (λ a b, statsCount b - statsCount a)
       (sortArticles <$> foldl countArticle [] fetched).

Definition totalCount (categories : list CategoryStats) : Z :=
  foldr (λ c total, statsCount c + total) 0 categories.

(** ** Related articles ([fetchRelatedArticles]) *)

Definition fetchRelatedArticles (currentArticle : Article)
    (allArticles : list Article) : list Article :=
  slice 0 5
    (filter (λ a, category a = category currentArticle
                  ∨ truthy (category currentArticle) = false)
       (filter (λ a, id a ≠ id currentArticle) allArticles)).


(** The category names in order of first appearance, and the entry a
    name must have once every article is counted. *)
Definition uniqueKeys (fetched : list Article) : list string :=
  foldl setAdd [] (categoryKey <$> fetched).

Definition categoryEntry (fetched : list Article) (name : string)
    : CategoryStats :=
  mkCategoryStats name
    (Z.of_nat (length (filter (λ a, categoryKey a = name) fetched)))
    ((λ a, mkArticleRef (id a) (title a) (createdAt a))
       <$> filter (λ a, categoryKey a = name) fetched).


(** ** A status change seen by the tree view ([handleStatusChange]) *)

(** The same tree with every article passed through [f]: what the tree
    view holds once the rows it was built from have been rewritten by
    [f]. *)
Fixpoint mapNode (f : Article → Article) (n : Node) : Node :=
  match n with
  | mkNode a cs => mkNode (f a) (mapNode f <$> cs)
  end.

Definition mapForest (f : Article → Article) (forest : list Node) : list Node :=
  mapNode f <$> forest.

(** What [updateStatus] does to one stored row. *)
Definition statusPatch (now : Z) (key : string) (st : Status) (row : Article)
    : Article :=
  if decide (id row = key) then applyUpdate (updateData now st) row else row.


(** ** The definitions at work *)

Example sort_newest_first :
  createdAt ∘ node_article <$>
    sort newestFirst
      [ mkNode (sampleArticle "a" Null Null 1) [];
        mkNode (sampleArticle "b" Null Null 3) [];
        mkNode (sampleArticle "c" Null Null 2) [] ]
  = [3; 2; 1].
Proof. reflexivity. Qed.

Example sort_keeps_ties_in_order :
  id ∘ node_article <$>
    sort newestFirst
      [ mkNode (sampleArticle "a" Null Null 5) [];
        mkNode (sampleArticle "b" Null Null 7) [];
        mkNode (sampleArticle "c" Null Null 5) [] ]
  = ["b"; "a"; "c"].
Proof. reflexivity. Qed.

Example categoryKey_absent :
  categoryKey (sampleArticle "a" Null Null 0) = "Uncategorized" ∧
  categoryKey (sampleArticle "a" (Val "") Null 0) = "Uncategorized" ∧
  categoryKey (sampleArticle "a" (Val "News") Null 0) = "News".
Proof. repeat split. Qed.

Example group_rejects_inherited_key :
  groupByCategory [sampleArticle "a" (Val "constructor") Null 0] = None.
Proof. reflexivity. Qed.

Example includes_examples :
  includes "hello world" "lo w" = true ∧ includes "abc" "" = true ∧
  includes "abc" "abd" = false ∧ includes "" "a" = false.
Proof. repeat split. Qed.

Example slice_examples :
  slice 0 2 [1; 2; 3] = [1; 2] ∧ slice 2 4 [1; 2; 3] = [3] ∧
  slice 4 6 [1; 2; 3] = [] ∧ slice (-1) 5 [1; 2; 3] = [3].
Proof. repeat split. Qed.

Example totalPages_eleven_drafts :
  totalPages asciiLowerCase (initialState elevenDrafts) = 2 ∧
  length (paginatedArticles asciiLowerCase (initialState elevenDrafts)) = 10%nat ∧
  length (paginatedArticles asciiLowerCase secondPage) = 1%nat.
Proof. repeat split. Qed.

Example search_ignores_case :
  matchesFilters asciiLowerCase
    (mkListState [] "NEW" "all" "draft" 1 10)
    (mkNode (mkArticle "1" "Breaking news" "s" "" (Val "News") draft Null 0 0
               Null Null Null Null) []) = true.
Proof. reflexivity. Qed.

Example scenarioB_tree :
  fetchArticles scenarioB
  = Some (mkBuild {["1" := mkTreeNode (sampleArticle "1" Null (Val "missing") 0) []]}
                  ["1"]).
Proof. vm_compute. reflexivity. Qed.

(** ** Properties of the sort *)

Section SortFacts.
Context {A : Type} (cmp : A → A → Z).

Lemma sort_insert_Permutation x l : sort_insert cmp x l ≡ₚ x :: l.
Proof.
  induction l as [|y l IH]; simpl; [done|].
  destruct (0 <? cmp x y); [|done].
  rewrite IH. apply Permutation_swap.
Qed.

Lemma sort_Permutation l : sort cmp l ≡ₚ l.
Proof.
  induction l as [|x l IH]; simpl; [done|].
  by rewrite sort_insert_Permutation, IH.
Qed.

Lemma elem_of_sort x l : x ∈ sort cmp l ↔ x ∈ l.
Proof. by rewrite sort_Permutation. Qed.
End SortFacts.

Section SortDescending.
Context {A : Type} (key : A → Z).

Lemma sort_insert_descending x l :
  StronglySorted (descending key) l →
  StronglySorted (descending key) (sort_insert (λ a b, key b - key a) x l).
Proof.
  induction 1 as [|y l Hl IH Hy]; simpl.
  - repeat constructor.
  - destruct (0 <? key y - key x) eqn:E.
    + constructor; [done|].
      rewrite sort_insert_Permutation. constructor; [|done].
      unfold descending. apply Z.ltb_lt in E. lia.
    + apply Z.ltb_ge in E.
      constructor; [by constructor|].
      constructor; [unfold descending; lia|].
      eapply Forall_impl; [exact Hy|].
      unfold descending. intros; lia.
Qed.

Lemma sort_descending l :
  StronglySorted (descending key) (sort (λ a b, key b - key a) l).
Proof.
  induction l as [|x l IH]; simpl; [constructor|].
  by apply sort_insert_descending.
Qed.
End SortDescending.

(** ** Properties of the grouping *)

Lemma groupByCategory_snoc l a :
  groupByCategory (l ++ [a]) = groupStep (groupByCategory l) a.
Proof. unfold groupByCategory. by rewrite foldl_app. Qed.

Lemma bucketOf_snoc_same l a :
  bucketOf (categoryKey a) (l ++ [a]) =
    Some (default [] (bucketOf (categoryKey a) l) ++ [a]).
Proof.
  unfold bucketOf. rewrite filter_app, filter_cons_True, filter_nil by done.
  by destruct (filter _ l).
Qed.

Lemma bucketOf_snoc_other l a c :
  categoryKey a ≠ c → bucketOf c (l ++ [a]) = bucketOf c l.
Proof.
  intros Hne. unfold bucketOf.
  by rewrite filter_app, filter_cons_False, filter_nil, app_nil_r.
Qed.

Lemma groupByCategory_lookup l categorized :
  groupByCategory l = Some categorized →
  ∀ c, categorized !! c = bucketOf c l.
Proof.
  revert categorized. induction l as [|a l IH] using rev_ind; intros g Hg c.
  - injection Hg as <-. by rewrite lookup_empty.
  - rewrite groupByCategory_snoc in Hg.
    destruct (groupByCategory l) as [g0|]; [|done]. simpl in Hg.
    specialize (IH g0 eq_refl).
    assert (∃ b, g = <[categoryKey a := b ++ [a]]> g0 ∧
                 b = default [] (bucketOf (categoryKey a) l)) as (b & -> & ->).
    { rewrite <- IH. destruct (g0 !! categoryKey a) as [bucket|].
      - injection Hg as <-. by exists bucket.
      - case_decide; [done|]. injection Hg as <-. by exists []. }
    destruct (decide (categoryKey a = c)) as [<-|Hne].
    + by rewrite lookup_insert_eq, bucketOf_snoc_same.
    + by rewrite lookup_insert_ne, bucketOf_snoc_other, IH.
Qed.

Lemma bucketOf_Some c l bucket :
  bucketOf c l = Some bucket → bucket = filter (λ a, categoryKey a = c) l.
Proof. unfold bucketOf. destruct (filter _ l); naive_solver. Qed.

(** ** Properties of [buildHierarchy] *)

Lemma elem_of_flat_map {A B} (f : A → list B) (l : list A) (y : B) :
  y ∈ flat_map f l ↔ ∃ x, x ∈ l ∧ y ∈ f x.
Proof.
  rewrite list_elem_of_In, in_flat_map.
  by setoid_rewrite list_elem_of_In.
Qed.

Lemma Forall2_Forall_transfer {A B} (R : A → B → Prop) (P : A → Prop)
    (Q : B → Prop) (l : list A) (k : list B) :
  (∀ x y, P x → R x y → Q y) → Forall2 R l k → Forall P l → Forall Q k.
Proof.
  intros HPQ. induction 1 as [|x y l k Hxy _ IH]; intros Hl; [constructor|].
  inversion Hl; subst. constructor; eauto.
Qed.

(** One level of the result: sorted, made of articles of the input that
    name [parent] as their parent, each carrying the level built for it. *)
Lemma buildHierarchy_level fuel articles parent roots :
  buildHierarchy fuel articles parent = Some roots →
  ∃ fuel', fuel = S fuel' ∧
    StronglySorted notOlder roots ∧
    Forall (λ n, node_article n ∈ articles ∧
                 parentId (node_article n) = parent ∧
                 buildHierarchy fuel' articles (Val (id (node_article n)))
                   = Some (node_children n)) roots.
Proof.
  destruct fuel as [|fuel']; [done|]. simpl. intros H.
  apply fmap_Some in H as (raw & Hraw & ->). exists fuel'.
  split; [done|]. split.
  - apply (sort_descending (λ n, createdAt (node_article n))).
  - apply mapM_Some in Hraw. rewrite sort_Permutation.
    eapply Forall2_Forall_transfer; [|exact Hraw|].
    2:{ apply list.Forall_forall. intros a Ha.
        apply list_elem_of_filter in Ha. exact Ha. }
    simpl. intros a n [Hp Ha] Hn.
    apply fmap_Some in Hn as (cs & Hcs & ->). by simpl.
Qed.

(** Every node of the result carries an article of the input. *)
Lemma buildHierarchy_nodes fuel articles parent roots n :
  buildHierarchy fuel articles parent = Some roots →
  n ∈ flat_map nodes roots → node_article n ∈ articles.
Proof.
  revert parent roots n. induction fuel as [|fuel IH]; intros p roots n H Hn;
    [done|].
  apply buildHierarchy_level in H as (f & [= <-] & _ & Hroots).
  apply elem_of_flat_map in Hn as (r & Hr & Hn).
  rewrite list.Forall_forall in Hroots.
  destruct (Hroots _ Hr) as (Hin & _ & Hcs).
  destruct r as [a cs]. simpl in *.
  apply elem_of_cons in Hn as [->|Hn]; [done|]. eauto.
Qed.

(** Every sibling sequence of the result is sorted newest first. *)
Lemma buildHierarchy_levels fuel articles parent roots level :
  buildHierarchy fuel articles parent = Some roots →
  level ∈ roots :: flat_map levels roots → StronglySorted notOlder level.
Proof.
  revert parent roots level.
  induction fuel as [|fuel IH]; intros p roots level H Hl; [done|].
  pose proof H as H'.
  apply buildHierarchy_level in H' as (f & [= <-] & Hsorted & Hroots).
  apply elem_of_cons in Hl as [->|Hl]; [done|].
  apply elem_of_flat_map in Hl as (r & Hr & Hl).
  rewrite list.Forall_forall in Hroots.
  destruct (Hroots _ Hr) as (_ & _ & Hcs).
  destruct r as [a cs]. simpl in *. eauto.
Qed.

(** What [getCategorizedHierarchy] returns, bucket by bucket. *)
Lemma getCategorizedHierarchy_lookup fuel articles forest c roots :
  getCategorizedHierarchy fuel articles = Returns forest →
  forest !! c = Some roots →
  buildHierarchy fuel (filter (λ a, categoryKey a = c) articles) Null
    = Some roots.
Proof.
  unfold getCategorizedHierarchy.
  destruct (groupByCategory articles) as [g|] eqn:Hg; [|done].
  case_decide; [|done]. intros [= <-].
  rewrite lookup_omap, lookup_fmap, (groupByCategory_lookup _ _ Hg).
  destruct (bucketOf c articles) as [bucket|] eqn:Hb; [|done].
  apply bucketOf_Some in Hb as ->. simpl.
  by destruct (buildHierarchy _ _ _).
Qed.



(** ** Trees *)

Lemma Node_forall_ind (P : Node → Prop) :
  (∀ a cs, Forall P cs → P (mkNode a cs)) → ∀ n, P n.
Proof.
  intros step. fix IH 1. intros [a cs]. apply step.
  induction cs as [|c cs IHcs]; constructor; [apply IH|exact IHcs].
Qed.

Lemma nodes_self n : n ∈ nodes n.
Proof. destruct n. simpl. left. Qed.

(** A node below a node of a tree is a node of that tree. *)
Lemma nodes_trans m n r : m ∈ nodes n → n ∈ nodes r → m ∈ nodes r.
Proof.
  intros Hm. induction r as [a cs IH] using Node_forall_ind. simpl.
  intros [->|Hn]%elem_of_cons; [done|]. right.
  apply elem_of_flat_map in Hn as (c & Hc & Hn).
  apply elem_of_flat_map. exists c. split; [done|].
  rewrite list.Forall_forall in IH. by apply IH.
Qed.

Lemma nodes_children m n :
  m ∈ flat_map nodes (node_children n) → m ∈ nodes n.
Proof. destruct n. simpl. by right. Qed.

(** ** Generations of a grown forest *)

Lemma NoDup_fmap_same {A B} (f : A → B) (l : list A) (x y : A) :
  NoDup (f <$> l) → x ∈ l → y ∈ l → f x = f y → x = y.
Proof.
  induction l as [|z l IH]; intros Hnd Hx Hy Hf; [by apply elem_of_nil in Hx|].
  rewrite fmap_cons in Hnd. apply NoDup_cons in Hnd as [Hz Hnd].
  apply elem_of_cons in Hx as [->|Hx]; apply elem_of_cons in Hy as [->|Hy].
  - done.
  - destruct Hz. rewrite Hf. by apply list_elem_of_fmap_2.
  - destruct Hz. rewrite <- Hf. by apply list_elem_of_fmap_2.
  - by apply IH.
Qed.

Lemma articlesOf_cons a cs forest :
  articlesOf (mkNode a cs :: forest) = a :: articlesOf cs ++ articlesOf forest.
Proof. unfold articlesOf. simpl. by rewrite fmap_app. Qed.

Lemma articlesOf_Permutation forest forest' :
  forest ≡ₚ forest' → articlesOf forest ≡ₚ articlesOf forest'.
Proof.
  intros Hperm. unfold articlesOf. apply fmap_Permutation.
  by apply Permutation_flat_map.
Qed.

Lemma NoDup_flat_map {A B} (f : A → list B) (l : list A) :
  NoDup l →
  (∀ x, x ∈ l → NoDup (f x)) →
  (∀ x y z, x ∈ l → y ∈ l → z ∈ f x → z ∈ f y → x = y) →
  NoDup (flat_map f l).
Proof.
  induction 1 as [|x l Hx Hl IH]; intros Hf Hdisj; simpl; [constructor|].
  apply NoDup_app. split; [apply Hf; left|]. split.
  - intros z Hz (y & Hy & Hzy)%elem_of_flat_map.
    assert (x = y) as -> by (eapply Hdisj; eauto using list_elem_of_here, list_elem_of_further).
    done.
  - apply IH.
    + intros y Hy. apply Hf. by right.
    + intros y1 y2 z H1 H2. apply Hdisj; by right.
Qed.

Section GrowFacts.
Context (placed : nullable string → Article → Prop)
        `{∀ k a, Decision (placed k a)}.
Context (arrange : list Node → list Node).
Context (universe : list Article).

#[local] Abbreviation kids := (kids placed universe).
#[local] Abbreviation below := (below placed universe).
#[local] Abbreviation generation := (generation placed universe).
#[local] Abbreviation reach := (reach placed universe).
#[local] Abbreviation grow := (grow placed arrange universe).
#[local] Abbreviation rooted := (rooted placed universe).

Lemma kids_unfold k : kids k = filter (placed k) universe.
Proof. reflexivity. Qed.

Lemma below_unfold X : below X = flat_map (λ a, kids (Val (id a))) X.
Proof. reflexivity. Qed.

Lemma below_app X Y : below (X ++ Y) = below X ++ below Y.
Proof. rewrite !below_unfold. by rewrite flat_map_app. Qed.

Lemma elem_of_below a X :
  a ∈ below X ↔ ∃ b, b ∈ X ∧ a ∈ universe ∧ placed (Val (id b)) a.
Proof.
  rewrite below_unfold, elem_of_flat_map.
  setoid_rewrite kids_unfold. setoid_rewrite list_elem_of_filter.
  naive_solver.
Qed.

Lemma generation_S_r n X : generation (S n) X = below (generation n X).
Proof. revert X. induction n as [|n IH]; intros X; [done|]. simpl. by rewrite <- IH. Qed.

Lemma generation_nil n : generation n [] = [].
Proof. induction n; [done|]. simpl. done. Qed.

Lemma generation_app n X Y :
  generation n (X ++ Y) = generation n X ++ generation n Y.
Proof.
  revert X Y. induction n as [|n IH]; intros X Y; [done|].
  simpl. by rewrite below_app, IH.
Qed.

Lemma generation_add i j X :
  generation j (generation i X) = generation (i + j) X.
Proof. revert X. induction i as [|i IH]; intros X; [done|]. simpl. apply IH. Qed.

Lemma generation_empty_later i j X :
  generation i X = [] → (i ≤ j)%nat → generation j X = [].
Proof.
  intros Hi Hij. replace j with (i + (j - i))%nat by lia.
  by rewrite <- generation_add, Hi, generation_nil.
Qed.

Lemma reach_nil n : reach n [] = [].
Proof. induction n; [done|]. simpl. done. Qed.

Lemma reach_app n X Y : reach n (X ++ Y) ≡ₚ reach n X ++ reach n Y.
Proof.
  revert X Y. induction n as [|n IH]; intros X Y; [done|].
  simpl. rewrite below_app, IH.
  rewrite <- !(assoc_L (++)). f_equiv.
  rewrite !(assoc_L (++)). f_equiv. apply Permutation_app_comm.
Qed.

Lemma elem_of_reach a n X :
  a ∈ reach n X ↔ ∃ j, (j < n)%nat ∧ a ∈ generation j X.
Proof.
  revert X. induction n as [|n IH]; intros X; simpl.
  - split; [by intros ?%elem_of_nil|]. intros (j & ? & _). lia.
  - rewrite elem_of_app, IH. split.
    + intros [Ha|(j & Hj & Ha)]; [exists O|exists (S j)]; split; auto with lia.
    + intros ([|j] & Hj & Ha); [by left|]. right. exists j. split; [lia|done].
Qed.

Lemma length_reach_generation n X :
  generation n X ≠ [] → (n < length (reach (S n) X))%nat.
Proof.
  revert X. induction n as [|n IH]; intros X HX.
  - simpl in *. rewrite length_app. destruct X; [done|]. simpl. lia.
  - change (reach (S (S n)) X) with (X ++ reach (S n) (below X)).
    rewrite length_app. specialize (IH (below X) HX).
    destruct X; [|cbn [length]; lia].
    exfalso. apply HX. simpl. apply generation_nil.
Qed.

(** *** What [grow] returns *)

Lemma grow_S fuel k forest :
  grow (S fuel) k = Some forest →
  ∃ raw, forest = arrange raw ∧
    Forall2 (λ a n, ∃ cs, grow fuel (Val (id a)) = Some cs ∧ n = mkNode a cs)
            (kids k) raw.
Proof.
  simpl. intros (raw & Hraw & ->)%fmap_Some. exists raw. split; [done|].
  apply mapM_Some in Hraw. eapply Forall2_impl; [exact Hraw|].
  simpl. intros a n (cs & ? & ->)%fmap_Some. eauto.
Qed.

(** More fuel does not change a result. *)
Lemma grow_fuel_mono fuel fuel' k forest :
  grow fuel k = Some forest → (fuel ≤ fuel')%nat → grow fuel' k = Some forest.
Proof.
  revert fuel' k forest.
  induction fuel as [|fuel IH]; intros fuel' k forest Hg Hle; [done|].
  destruct fuel' as [|fuel']; [lia|].
  apply grow_S in Hg as (raw & -> & Hraw). simpl.
  apply fmap_Some. exists raw. split; [|done].
  apply mapM_Some. eapply Forall2_impl; [exact Hraw|].
  simpl. intros a n (cs & Hcs & ->).
  rewrite (IH fuel' _ cs) by (done || lia). done.
Qed.

Lemma grow_is_Some fuel k :
  generation fuel (kids k) = [] → is_Some (grow (S fuel) k).
Proof.
  revert k. induction fuel as [|fuel IH]; intros k Hk.
  - simpl in *. rewrite Hk. by eexists.
  - change (grow (S (S fuel)) k) with
      (arrange <$> mapM (λ a, mkNode a <$> grow (S fuel) (Val (id a))) (kids k)).
    apply fmap_is_Some. apply mapM_is_Some.
    apply list.Forall_forall. intros a Ha. apply fmap_is_Some, IH.
    apply list_elem_of_split in Ha as (X1 & X2 & HX).
    simpl in Hk. rewrite HX, below_app in Hk.
    rewrite generation_app in Hk. apply app_eq_nil in Hk as [_ Hk].
    change (below (a :: X2)) with (kids (Val (id a)) ++ below X2) in Hk.
    rewrite generation_app in Hk. by apply app_eq_nil in Hk as [Hk _].
Qed.

Lemma grow_Some_generation fuel k forest :
  grow (S fuel) k = Some forest → generation fuel (kids k) = [].
Proof.
  revert k forest. induction fuel as [|fuel IH]; intros k forest Hg.
  - apply grow_S in Hg as (raw & _ & Hraw). simpl.
    destruct Hraw as [|a n X raw' (cs & Hcs & _) _]; [done|]. done.
  - apply grow_S in Hg as (raw & _ & Hraw). simpl.
    induction Hraw as [|a n X raw' (cs & Hcs & _) _ IHraw].
    + apply generation_nil.
    + change (below (a :: X)) with (kids (Val (id a)) ++ below X).
      rewrite generation_app, IHraw, app_nil_r. eauto.
Qed.

(** *** The articles of a grown forest *)

Hypothesis arrange_Permutation : ∀ l, arrange l ≡ₚ l.

Lemma grow_articles fuel k forest :
  grow fuel k = Some forest → articlesOf forest ≡ₚ reach fuel (kids k).
Proof.
  revert k forest. induction fuel as [|fuel IH]; intros k forest Hg; [done|].
  apply grow_S in Hg as (raw & -> & Hraw).
  rewrite (articlesOf_Permutation _ _ (arrange_Permutation raw)).
  change (reach (S fuel) (kids k)) with (kids k ++ reach fuel (below (kids k))).
  induction Hraw as [|a n X raw' (cs & Hcs & ->) _ IHraw].
  - simpl. by rewrite reach_nil.
  - rewrite articlesOf_cons, (IH _ _ Hcs), IHraw.
    change (below (a :: X)) with (kids (Val (id a)) ++ below X).
    rewrite reach_app. simpl. f_equiv.
    rewrite !(assoc_L (++)). f_equiv. apply Permutation_app_comm.
Qed.

(** *** Generations under the top level *)

Hypothesis placed_unique : ∀ k k' a, placed k a → placed k' a → k = k'.
Hypothesis ids_unique : NoDup (id <$> universe).

#[local] Abbreviation gen n := (generation n (kids Null)).

Lemma elem_of_gen_O a : a ∈ gen O ↔ placed Null a ∧ a ∈ universe.
Proof. apply list_elem_of_filter. Qed.

Lemma elem_of_gen_S a n :
  a ∈ gen (S n) ↔ ∃ b, b ∈ gen n ∧ a ∈ universe ∧ placed (Val (id b)) a.
Proof. by rewrite generation_S_r, elem_of_below. Qed.

Lemma gen_universe a n : a ∈ gen n → a ∈ universe.
Proof.
  destruct n.
  - by intros [_ ?]%elem_of_gen_O.
  - by intros (_ & _ & ? & _)%elem_of_gen_S.
Qed.

Lemma gen_inj i j a : a ∈ gen i → a ∈ gen j → i = j.
Proof.
  revert j a. induction i as [|i IH]; intros [|j] a Hi Hj; [done|..].
  - apply elem_of_gen_O in Hi as [Hi _].
    apply elem_of_gen_S in Hj as (b & _ & _ & Hj).
    by specialize (placed_unique _ _ _ Hi Hj).
  - apply elem_of_gen_O in Hj as [Hj _].
    apply elem_of_gen_S in Hi as (b & _ & _ & Hi).
    by specialize (placed_unique _ _ _ Hi Hj).
  - apply elem_of_gen_S in Hi as (b & Hb & _ & Hi).
    apply elem_of_gen_S in Hj as (b' & Hb' & _ & Hj).
    pose proof (placed_unique _ _ _ Hi Hj) as [= Hid].
    assert (b = b') as <-
      by eauto using NoDup_fmap_same, gen_universe.
    f_equal. eauto.
Qed.

Lemma NoDup_universe : NoDup universe.
Proof. by eapply NoDup_fmap_1. Qed.

Lemma NoDup_gen n : NoDup (gen n).
Proof.
  induction n as [|n IH].
  - apply NoDup_filter, NoDup_universe.
  - rewrite generation_S_r. apply NoDup_flat_map; [done|..].
    + intros b _. apply NoDup_filter, NoDup_universe.
    + intros b b' a Hb Hb' [Ha _]%list_elem_of_filter [Ha' _]%list_elem_of_filter.
      pose proof (placed_unique _ _ _ Ha Ha') as [= Hid].
      eauto using NoDup_fmap_same, gen_universe.
Qed.

Lemma NoDup_reach_gen n i : NoDup (reach n (gen i)).
Proof.
  revert i. induction n as [|n IH]; intros i; [constructor|].
  simpl. apply NoDup_app. split; [apply NoDup_gen|]. split.
  - intros a Ha (j & _ & Hj)%elem_of_reach.
    rewrite <- generation_S_r, generation_add in Hj.
    pose proof (gen_inj _ _ _ Ha Hj). lia.
  - rewrite <- generation_S_r. apply IH.
Qed.

Lemma reach_gen_universe n a : a ∈ reach n (gen O) → a ∈ universe.
Proof. intros (j & _ & Hj)%elem_of_reach. by eapply gen_universe. Qed.

(** There are no more generations than articles. *)
Lemma gen_length_universe : gen (length universe) = [].
Proof.
  destruct (gen (length universe)) as [|x xs] eqn:E; [done|].
  assert (Hlt : (length universe < length (reach (S (length universe)) (gen O)))%nat).
  { apply length_reach_generation.
    change (generation (length universe) (gen O)) with (gen (length universe)).
    by rewrite E. }
  assert (Hle : reach (S (length universe)) (gen O) ⊆+ universe).
  { apply NoDup_submseteq; [apply NoDup_reach_gen|].
    intros a. apply reach_gen_universe. }
  apply submseteq_length in Hle. lia.
Qed.

Lemma rooted_gen n a :
  rooted n a → a ∈ universe → ∃ j, (j ≤ n)%nat ∧ a ∈ gen j.
Proof.
  revert a. induction n as [|n IH]; intros a [Ha|Ha] Hin.
  - exists O. split; [lia|]. by apply elem_of_gen_O.
  - done.
  - exists O. split; [lia|]. by apply elem_of_gen_O.
  - destruct Ha as (b & Hb & Hab & Hrooted).
    destruct (IH b Hrooted Hb) as (j & Hj & Hbj).
    exists (S j). split; [lia|]. apply elem_of_gen_S. eauto.
Qed.

Lemma gen_rooted n a : a ∈ gen n → rooted n a.
Proof.
  revert a. induction n as [|n IH]; intros a Ha.
  - left. by apply elem_of_gen_O in Ha as [? _].
  - apply elem_of_gen_S in Ha as (b & Hb & Ha & Hab).
    right. exists b. eauto using gen_universe.
Qed.

(** The forest is always finite: cycles of the placement rule cannot be
    reached from the top level. *)
Theorem grow_total fuel :
  (length universe < fuel)%nat → is_Some (grow fuel Null).
Proof.
  destruct fuel as [|fuel]; [lia|]. intros Hlt. apply grow_is_Some.
  apply (generation_empty_later (length universe)); [|lia].
  apply gen_length_universe.
Qed.

(** No article occurs twice in the forest, and none is invented. *)
Theorem grow_NoDup fuel forest :
  grow fuel Null = Some forest →
  NoDup (articlesOf forest) ∧ ∀ a, a ∈ articlesOf forest → a ∈ universe.
Proof.
  intros Hg. pose proof (grow_articles _ _ _ Hg) as Hperm. split.
  - rewrite Hperm. apply (NoDup_reach_gen fuel O).
  - intros a. rewrite Hperm. apply reach_gen_universe.
Qed.

(** Only articles whose placement chain ends at the top level are in the
    forest. *)
Theorem grow_rooted fuel forest a :
  grow fuel Null = Some forest → a ∈ articlesOf forest → ∃ n, rooted n a.
Proof.
  intros Hg. rewrite (grow_articles _ _ _ Hg).
  intros (j & _ & Hj)%elem_of_reach. exists j. by apply gen_rooted.
Qed.


(** An article of the universe whose placement chain ends at the top
    level is in the forest. *)
Lemma grow_member fuel forest n a :
  grow fuel Null = Some forest → a ∈ universe → rooted n a →
  a ∈ articlesOf forest.
Proof.
  intros Hg Ha Hn. rewrite (grow_articles _ _ _ Hg). apply elem_of_reach.
  destruct (rooted_gen _ _ Hn Ha) as (j & _ & Hj).
  exists j. split; [|done].
  destruct fuel as [|fuel]; [done|].
  apply grow_Some_generation in Hg.
  destruct (decide (j < S fuel)%nat); [done|].
  rewrite (generation_empty_later fuel j) in Hj by (done || lia).
  by apply elem_of_nil in Hj.
Qed.
End GrowFacts.

(** ** [buildHierarchy] as a grown forest *)

Lemma buildHierarchy_grow fuel articles parent :
  buildHierarchy fuel articles parent
  = grow placedUnder (sort newestFirst) articles fuel parent.
Proof.
  revert parent. induction fuel as [|fuel IH]; intros parent; [done|].
  simpl. f_equal. apply mapM_ext. intros a. by rewrite IH.
Qed.

Lemma NoDup_ids_filter (P : Article → Prop) `{∀ a, Decision (P a)} l :
  NoDup (id <$> l) → NoDup (id <$> filter P l).
Proof.
  intros Hids. eapply sublist_NoDup; [exact Hids|].
  apply fmap_sublist, sublist_filter.
Qed.

(** With pairwise distinct ids the recursion from the top level ends
    within as many calls as there are articles. *)
Lemma buildHierarchy_total fuel articles :
  NoDup (id <$> articles) → (length articles < fuel)%nat →
  is_Some (buildHierarchy fuel articles Null).
Proof.
  intros Hids Hfuel. rewrite buildHierarchy_grow.
  apply grow_total; [|done|done]. unfold placedUnder. by intros k k' a -> ->.
Qed.

Lemma buildHierarchy_fuel_mono fuel fuel' articles parent roots :
  buildHierarchy fuel articles parent = Some roots → (fuel ≤ fuel')%nat →
  buildHierarchy fuel' articles parent = Some roots.
Proof. rewrite !buildHierarchy_grow. apply grow_fuel_mono. Qed.

Lemma groupByCategory_is_Some articles :
  (∀ a, a ∈ articles → categoryKey a ∉ objectPrototypeKeys) →
  is_Some (groupByCategory articles).
Proof.
  induction articles as [|a l IH] using rev_ind; intros Hkeys; [by eexists|].
  rewrite groupByCategory_snoc.
  destruct IH as [g Hg]. { intros b Hb. apply Hkeys, elem_of_app. by left. }
  rewrite Hg. simpl. destruct (g !! categoryKey a); [by eexists|].
  rewrite decide_False; [by eexists|].
  apply Hkeys, elem_of_app. right. left.
Qed.

(** The categorized hierarchy is returned whenever ids are pairwise
    distinct and no category is named like a member of [Object.prototype]. *)
Theorem getCategorizedHierarchy_total fuel articles :
  NoDup (id <$> articles) →
  (∀ a, a ∈ articles → categoryKey a ∉ objectPrototypeKeys) →
  (length articles < fuel)%nat →
  ∃ forest, getCategorizedHierarchy fuel articles = Returns forest.
Proof.
  intros Hids Hkeys Hfuel. unfold getCategorizedHierarchy.
  destruct (groupByCategory_is_Some _ Hkeys) as [g Hg]. rewrite Hg.
  rewrite decide_True; [by eexists|].
  apply map_Forall_lookup. intros c r. rewrite lookup_fmap.
  rewrite (groupByCategory_lookup _ _ Hg).
  destruct (bucketOf c articles) as [bucket|] eqn:Hb; [|done].
  apply bucketOf_Some in Hb as ->. simpl. intros [= <-].
  apply buildHierarchy_total; [by apply NoDup_ids_filter|].
  pose proof (length_filter (λ a, categoryKey a = c) articles). lia.
Qed.

(** ** The categorized forest: main results *)

(** C10. Every node found anywhere in the tree of bucket [c], as a bucket
    root or nested at any depth, carries an article of the input whose
    category key is [c], where the key of an absent or empty category is
    "Uncategorized"; the buckets are cut from the input by that key (each
    holds the articles of its key, in input order) before any hierarchy is
    built. *)
Theorem forest_nodes_in_own_bucket fuel fetched forest c roots n :
  getCategorizedHierarchy fuel fetched = Returns forest →
  forest !! c = Some roots →
  n ∈ flat_map nodes roots →
  categoryKey (node_article n) = c ∧ node_article n ∈ fetched ∧
  ∃ categorized, groupByCategory fetched = Some categorized ∧
                 ∀ k, categorized !! k = bucketOf k fetched.
Proof.
  intros Hf Hc Hn.
  pose proof (getCategorizedHierarchy_lookup _ _ _ _ _ Hf Hc) as Hb.
  pose proof (buildHierarchy_nodes _ _ _ _ _ Hb Hn) as Hin.
  apply list_elem_of_filter in Hin as [Hkey Hin]. do 2 (split; [done|]).
  unfold getCategorizedHierarchy in Hf.
  destruct (groupByCategory fetched) as [g|] eqn:Hg; [|done].
  exists g. split; [done|]. by apply groupByCategory_lookup.
Qed.

Lemma forest_nodes_in_own_bucket_witness :
  categoryKey (sampleArticle "1" (Val "A") Null 0) = "A" ∧
  sampleArticle "1" (Val "A") Null 0 ∈ scenarioC ∧
  ∃ categorized, groupByCategory scenarioC = Some categorized ∧
                 ∀ k, categorized !! k = bucketOf k scenarioC.
Proof.
  eapply (forest_nodes_in_own_bucket 2 scenarioC _ "A" _
            (mkNode (sampleArticle "1" (Val "A") Null 0) [])).
  - vm_compute. reflexivity.
  - vm_compute. reflexivity.
  - simpl. left.
Defined.

(** C5, as amended. When the bucket keys of [A] and [B] differ (the key
    is the category, or "Uncategorized" when the category is absent or
    empty) and [A] names [B] as its parent, [A] is not found anywhere
    below [B]'s node in [B]'s bucket, nor anywhere else in that bucket:
    parent and child are linked only within one bucket. *)
Theorem cross_bucket_child_detached fuel fetched (A B : Article) forest roots :
  A ∈ fetched → B ∈ fetched →
  categoryKey A ≠ categoryKey B →
  parentId A = Val (id B) →
  getCategorizedHierarchy fuel fetched = Returns forest →
  forest !! categoryKey B = Some roots →
  (∀ n m, n ∈ flat_map nodes roots → node_article n = B →
          m ∈ flat_map nodes (node_children n) → node_article m ≠ A) ∧
  (∀ n, n ∈ flat_map nodes roots → node_article n ≠ A).
Proof.
  intros _ _ Hkey _ Hf Hc.
  assert (Hall : ∀ n, n ∈ flat_map nodes roots → node_article n ≠ A).
  { intros n Hn <-.
    pose proof (getCategorizedHierarchy_lookup _ _ _ _ _ Hf Hc) as Hb.
    pose proof (buildHierarchy_nodes _ _ _ _ _ Hb Hn) as Hin.
    by apply list_elem_of_filter in Hin as [? _]. }
  split; [|done]. intros n m Hn _ Hm. apply Hall.
  apply elem_of_flat_map in Hn as (r & Hr & Hn).
  apply elem_of_flat_map. exists r. split; [done|].
  eapply nodes_trans; [|exact Hn]. by apply nodes_children.
Qed.

Lemma cross_bucket_child_detached_witness :
  (∀ n m, n ∈ flat_map nodes [] → node_article n = sampleArticle "1" (Val "A") Null 0 →
          m ∈ flat_map nodes (node_children n) →
          node_article m ≠ sampleArticle "2" (Val "B") (Val "1") 0) ∧
  (∀ n, n ∈ flat_map nodes
              [mkNode (sampleArticle "1" (Val "A") Null 0) []] →
        node_article n ≠ sampleArticle "2" (Val "B") (Val "1") 0).
Proof.
  split.
  - intros n m Hn. simpl in Hn. by apply elem_of_nil in Hn.
  - eapply (cross_bucket_child_detached 2 scenarioC
              (sampleArticle "2" (Val "B") (Val "1") 0)
              (sampleArticle "1" (Val "A") Null 0)).
    + right. left.
    + left.
    + vm_compute. discriminate.
    + reflexivity.
    + vm_compute. reflexivity.
    + vm_compute. reflexivity.
Defined.

(** C5 fails as stated: an article whose category is the empty string
    and a parent whose category is the literal "Uncategorized" have
    different categories, yet share the bucket "Uncategorized", where the
    article is nested under its parent. *)
Lemma empty_category_child_attached :
  let B := sampleArticle "b" (Val "Uncategorized") Null 0 in
  let A := sampleArticle "a" (Val "") (Val "b") 0 in
  category A = Val "" ∧ category B = Val "Uncategorized" ∧
  "" ≠ "Uncategorized" ∧ parentId A = Val (id B) ∧
  ∃ forest, getCategorizedHierarchy 3 [B; A] = Returns forest ∧
            forest !! "Uncategorized" = Some [mkNode B [mkNode A []]].
Proof.
  repeat split; try done.
  eexists. split; vm_compute; reflexivity.
Qed.

(** C6, as amended. In every bucket and at every level of its tree (the
    bucket's root list and every node's children) the nodes are ordered
    by descending [createdAt], most recent first; nodes created at the
    same instant may follow one another. *)
Theorem forest_levels_newest_first fuel fetched forest c roots level :
  getCategorizedHierarchy fuel fetched = Returns forest →
  forest !! c = Some roots →
  level ∈ roots :: flat_map levels roots →
  StronglySorted notOlder level.
Proof.
  intros Hf Hc. eapply buildHierarchy_levels.
  by eapply getCategorizedHierarchy_lookup.
Qed.

Lemma forest_levels_newest_first_witness :
  StronglySorted notOlder
    [mkNode (sampleArticle "x" (Val "A") Null 7) [];
     mkNode (sampleArticle "y" (Val "A") Null 5) []].
Proof.
  eapply (forest_levels_newest_first 2
            [sampleArticle "y" (Val "A") Null 5;
             sampleArticle "x" (Val "A") Null 7] _ "A").
  - vm_compute. reflexivity.
  - vm_compute. reflexivity.
  - left.
Defined.

(** C6 fails as stated: two articles of one bucket created at the same
    instant are both kept, side by side, so the level is not strictly
    descending. *)
Lemma equal_createdAt_not_strict :
  ∃ forest roots,
    getCategorizedHierarchy 2
      [sampleArticle "x" (Val "A") Null 5; sampleArticle "y" (Val "A") Null 5]
      = Returns forest ∧
    forest !! "A" = Some roots ∧
    ¬ Sorted strictlyNewer roots.
Proof.
  eexists _, _. split; [vm_compute; reflexivity|].
  split; [vm_compute; reflexivity|].
  intros Hsorted. inversion Hsorted as [|? ? _ Hhd]; subst.
  inversion Hhd as [|? ? Hlt]; subst.
  unfold strictlyNewer in Hlt. simpl in Hlt. lia.
Qed.

(** C1, as amended. For [L = [{id:1, parentId:null, category:"A"},
    {id:2, parentId:1, category:"B"}]] the categorized forest has bucket
    "A" equal to [[{id:1, children:[]}]] and bucket "B" empty: the
    cross-category child is not nested under its parent and is not a root
    of its own bucket either, since only records whose [parentId] is
    [null] become bucket roots. *)
Theorem scenarioC_forest (a1 a2 : Article) (fuel : nat) :
  id a1 = "1" → category a1 = Val "A" → parentId a1 = Null →
  id a2 = "2" → category a2 = Val "B" → parentId a2 = Val "1" →
  (2 ≤ fuel)%nat →
  ∃ forest, getCategorizedHierarchy fuel [a1; a2] = Returns forest ∧
    forest !! "A" = Some [mkNode a1 []] ∧ forest !! "B" = Some [].
Proof.
  intros. destruct a1, a2; simpl in *; subst.
  destruct fuel as [|[|f]]; [lia|lia|].
  eexists. split; [vm_compute; reflexivity|]. split; vm_compute; reflexivity.
Qed.

Lemma scenarioC_forest_witness :
  ∃ forest, getCategorizedHierarchy 2 scenarioC = Returns forest ∧
    forest !! "A" = Some [mkNode (sampleArticle "1" (Val "A") Null 0) []] ∧
    forest !! "B" = Some [].
Proof.
  apply (scenarioC_forest (sampleArticle "1" (Val "A") Null 0)
           (sampleArticle "2" (Val "B") (Val "1") 0) 2);
    solve [reflexivity | lia].
Defined.

(** C1 fails as stated: bucket "B" is not [[{id:2, children:[]}]]; it is
    empty. *)
Lemma scenarioC_child_not_root :
  ∃ forest, getCategorizedHierarchy 2 scenarioC = Returns forest ∧
    forest !! "B" = Some [] ∧
    forest !! "B" ≠ Some [mkNode (sampleArticle "2" (Val "B") (Val "1") 0) []].
Proof.
  eexists. split; [vm_compute; reflexivity|].
  split; [vm_compute; reflexivity|]. vm_compute. discriminate.
Qed.

(** When record 1 leaves [parentId] out altogether, it is [undefined],
    which is not strictly equal to [null]: bucket "A" is empty as well. *)
Lemma scenarioC_parentId_left_out :
  ∃ forest,
    getCategorizedHierarchy 2
      [sampleArticle "1" (Val "A") Undefined 0;
       sampleArticle "2" (Val "B") (Val "1") 0] = Returns forest ∧
    forest !! "A" = Some [] ∧ forest !! "B" = Some [].
Proof. eexists. repeat split; vm_compute; reflexivity. Qed.

(** ** Expansion state: main results *)

(** C8. Toggling a key twice in succession gives back the set it started
    from; one toggle is the symmetric difference with the singleton of
    the key: it adds the key when absent, removes it when present, and
    changes the membership of no other key. *)
Theorem toggleExpanded_involutive (expandedNodes : gset string) (k : string) :
  toggleExpanded (toggleExpanded expandedNodes k) k = expandedNodes ∧
  toggleExpanded expandedNodes k
    = (expandedNodes ∖ {[k]}) ∪ ({[k]} ∖ expandedNodes) ∧
  (k ∈ toggleExpanded expandedNodes k ↔ k ∉ expandedNodes) ∧
  (∀ k', k' ≠ k → k' ∈ toggleExpanded expandedNodes k ↔ k' ∈ expandedNodes).
Proof.
  unfold toggleExpanded.
  destruct (decide (k ∈ expandedNodes)) as [Hin|Hout].
  - rewrite decide_False by set_solver. split; [|set_solver].
    apply set_eq. intros x. destruct (decide (x = k)); set_solver.
  - rewrite decide_True by set_solver. set_solver.
Qed.

Lemma toggleExpanded_involutive_witness :
  toggleExpanded (toggleExpanded {["category-News"]} "1") "1"
    = {["category-News"]} ∧
  toggleExpanded {["category-News"]} "1"
    = ({["category-News"]} ∖ {["1"]}) ∪ ({["1"]} ∖ {["category-News"]}) ∧
  ("1" ∈ toggleExpanded {["category-News"]} "1" ↔ "1" ∉ ({["category-News"]} : gset string)) ∧
  (∀ k', k' ≠ "1" →
     k' ∈ toggleExpanded {["category-News"]} "1" ↔ k' ∈ ({["category-News"]} : gset string)).
Proof. exact (toggleExpanded_involutive {["category-News"]} "1"). Defined.

(** ** The root tree: both passes in closed form *)

Lemma firstPass_snoc l a :
  firstPass (l ++ [a]) = <[id a := mkTreeNode a []]> (firstPass l).
Proof. unfold firstPass. by rewrite foldl_app. Qed.

Lemma firstPass_lookup l i n :
  firstPass l !! i = Some n →
  childRefs n = [] ∧ nodeArticle n ∈ l ∧ id (nodeArticle n) = i.
Proof.
  induction l as [|a l IH] using rev_ind;
    [by unfold firstPass; simpl; rewrite lookup_empty|].
  rewrite firstPass_snoc. destruct (decide (id a = i)) as [<-|Hne].
  - rewrite lookup_insert_eq. intros [= <-]. simpl.
    repeat split. apply elem_of_app. right. left.
  - rewrite lookup_insert_ne by done. intros (? & ? & ?)%IH.
    repeat split; [done| |done]. apply elem_of_app. by left.
Qed.

Lemma firstPass_is_Some l i : is_Some (firstPass l !! i) ↔ i ∈ id <$> l.
Proof.
  induction l as [|a l IH] using rev_ind.
  - unfold firstPass. simpl. rewrite lookup_empty.
    split; [by intros [? ?]|by intros ?%elem_of_nil].
  - rewrite firstPass_snoc, fmap_app, elem_of_app, <- IH. simpl.
    rewrite list_elem_of_singleton.
    destruct (decide (id a = i)) as [<-|Hne].
    + rewrite lookup_insert_eq. naive_solver.
    + rewrite lookup_insert_ne by done. naive_solver.
Qed.

Lemma firstPass_NoDup l a :
  NoDup (id <$> l) → a ∈ l → firstPass l !! id a = Some (mkTreeNode a []).
Proof.
  intros Hids Ha.
  destruct (proj2 (firstPass_is_Some l (id a))) as [n Hn];
    [by apply list_elem_of_fmap_2|].
  rewrite Hn. apply firstPass_lookup in Hn as (Hcs & Hin & Hid).
  destruct n as [b cs]. simpl in *. subst cs.
  by rewrite (NoDup_fmap_same id l b a Hids Hin Ha Hid).
Qed.

Lemma validParent_Some m a p :
  validParent m a = Some p ↔
  parentId a = Val p ∧ p ≠ "" ∧ is_Some (m !! p).
Proof.
  unfold validParent. destruct (parentId a) as [| |q]; simpl; [naive_solver..|].
  destruct (decide (q = "")) as [->|Hq]; simpl; [naive_solver|].
  destruct (decide (is_Some (m !! q))) as [Hs|Hs].
  - rewrite bool_decide_eq_true_2 by done. naive_solver.
  - rewrite bool_decide_eq_false_2 by done. naive_solver.
Qed.

Lemma validParent_ext m m' a :
  (∀ p, is_Some (m !! p) ↔ is_Some (m' !! p)) →
  validParent m a = validParent m' a.
Proof.
  intros Hdom. destruct (validParent m' a) as [p|] eqn:E.
  - apply validParent_Some. apply validParent_Some in E. naive_solver.
  - destruct (validParent m a) as [p|] eqn:E'; [|done].
    apply validParent_Some in E'.
    assert (validParent m' a = Some p) as E''
      by (apply validParent_Some; naive_solver).
    rewrite E in E''. done.
Qed.

Lemma placedBy_unique fetched k k' a :
  placedBy fetched k a → placedBy fetched k' a → k = k'.
Proof. destruct k, k'; simpl; intros; try done; congruence. Qed.

Lemma secondPass_prefix fetched l :
  (∀ a, a ∈ l → a ∈ fetched) →
  ∃ b, foldl secondPassStep (Some (mkBuild (firstPass fetched) [])) l = Some b ∧
       rootArticles b = id <$> filter (placedBy fetched Null) l ∧
       ∀ i, articleMap b !! i = nodeAfter fetched l i <$> firstPass fetched !! i.
Proof.
  induction l as [|a l IH] using rev_ind; intros Hsub.
  - eexists. split; [done|]. split; [done|]. intros i. simpl.
    destruct (firstPass fetched !! i) as [n|] eqn:E; [|done].
    apply firstPass_lookup in E as (Hcs & _). destruct n; simpl in *.
    by subst.
  - destruct IH as (b & Hb & Hroots & Hmap).
    { intros x Hx. apply Hsub, elem_of_app. by left. }
    assert (Ha : a ∈ fetched) by (apply Hsub, elem_of_app; right; left).
    rewrite foldl_app, Hb. simpl.
    assert (Hdom : ∀ p, is_Some (articleMap b !! p)
                        ↔ is_Some (firstPass fetched !! p)).
    { intros p. by rewrite Hmap, fmap_is_Some. }
    rewrite (validParent_ext _ _ _ Hdom).
    assert (Hself : is_Some (articleMap b !! id a)).
    { apply Hdom, firstPass_is_Some. by apply list_elem_of_fmap_2. }
    destruct Hself as [self Hself]. rewrite Hself. simpl.
    destruct (validParent (firstPass fetched) a) as [p|] eqn:Hvp.
    + pose proof Hvp as (_ & _ & [n0 Hn0])%validParent_Some.
      rewrite Hmap, Hn0. simpl. eexists. split; [done|]. simpl. split.
      * rewrite filter_app, filter_cons_False, filter_nil, app_nil_r; [done|].
        simpl. congruence.
      * intros i. destruct (decide (p = i)) as [<-|Hne].
        -- rewrite lookup_insert_eq, Hn0. simpl. f_equal.
           unfold pushChild, nodeAfter. simpl. f_equal.
           by rewrite filter_app, filter_cons_True, filter_nil, fmap_app.
        -- rewrite lookup_insert_ne, Hmap by done.
           destruct (firstPass fetched !! i); [|done]. simpl. f_equal.
           unfold nodeAfter. f_equal.
           rewrite filter_app, filter_cons_False, filter_nil, app_nil_r; [done|].
           simpl. congruence.
    + eexists. split; [done|]. simpl. split.
      * by rewrite Hroots, filter_app, filter_cons_True, filter_nil, fmap_app.
      * intros i. rewrite Hmap.
        destruct (firstPass fetched !! i); [|done]. simpl. f_equal.
        unfold nodeAfter. f_equal.
        rewrite filter_app, filter_cons_False, filter_nil, app_nil_r; [done|].
        simpl. congruence.
Qed.

(** The hierarchy pass never fails.  The root list holds, in input order,
    the ids of the articles without an accepted parent; the children of
    a node hold, in input order, the ids of the articles that name it. *)
Lemma fetchArticles_closed_form fetched :
  ∃ b, fetchArticles fetched = Some b ∧
       rootArticles b = id <$> filter (placedBy fetched Null) fetched ∧
       ∀ i, articleMap b !! i
            = nodeAfter fetched fetched i <$> firstPass fetched !! i.
Proof. by apply secondPass_prefix. Qed.

(** ** The root tree as a grown forest *)

Lemma mapM_fmap_ext {A B C} (h : A → B) (f : B → option C) (g : A → option C)
    (l : list A) :
  (∀ x, x ∈ l → f (h x) = g x) → mapM f (h <$> l) = mapM g l.
Proof.
  induction l as [|x l IH]; intros Hfg; [done|].
  rewrite fmap_cons. simpl.
  rewrite Hfg by left. rewrite IH; [done|].
  intros y Hy. apply Hfg. by right.
Qed.

(** Reading the tree from the references of the articles placed under a
    key gives the forest grown from that key by the placement rule of the
    second pass, siblings in input order. *)
Lemma readTree_grow fetched b fuel k :
  NoDup (id <$> fetched) →
  (∀ i, articleMap b !! i
        = nodeAfter fetched fetched i <$> firstPass fetched !! i) →
  readTree fuel (articleMap b) (id <$> kids (placedBy fetched) fetched k)
  = grow (placedBy fetched) (λ forest, forest) fetched fuel k.
Proof.
  intros Hids Hmap. revert k.
  induction fuel as [|fuel IH]; intros k; [done|].
  simpl. rewrite option_fmap_id. apply mapM_fmap_ext.
  intros a [_ Ha]%list_elem_of_filter.
  rewrite Hmap, (firstPass_NoDup _ _ Hids Ha). simpl.
  by rewrite <- IH.
Qed.





(** ** The root tree: main results *)

(** C3. A record [A] of the list whose [parentId] is [X], where no
    record has id [X], is put in the root list, its node having been
    created with no children, and the pass raises no error: it always
    returns.  (With pairwise distinct ids the node stored under [A]'s id
    carries [A] itself.) *)
Theorem orphan_becomes_root fetched (A : Article) (X : string) :
  A ∈ fetched → parentId A = Val X → (∀ B, B ∈ fetched → id B ≠ X) →
  ∃ b, fetchArticles fetched = Some b ∧
       id A ∈ rootArticles b ∧
       (∃ n, firstPass fetched !! id A = Some n ∧ childRefs n = []) ∧
       (NoDup (id <$> fetched) →
        ∃ n, articleMap b !! id A = Some n ∧ nodeArticle n = A).
Proof.
  intros HA Hparent Hmissing.
  destruct (fetchArticles_closed_form fetched) as (b & Hb & Hroots & Hmap).
  exists b. split; [done|]. split; [|split].
  - rewrite Hroots. apply list_elem_of_fmap_2, list_elem_of_filter.
    split; [|done]. simpl.
    destruct (validParent (firstPass fetched) A) as [p|] eqn:Hvp; [|done].
    apply validParent_Some in Hvp as (Hp & _ & Hin).
    rewrite Hparent in Hp. injection Hp as <-.
    apply firstPass_is_Some, list_elem_of_fmap in Hin as (B & HX & HB).
    by destruct (Hmissing B HB).
  - destruct (proj2 (firstPass_is_Some fetched (id A))) as [n Hn];
      [by apply list_elem_of_fmap_2|].
    exists n. split; [done|]. by apply firstPass_lookup in Hn as (? & _).
  - intros Hids. rewrite Hmap, (firstPass_NoDup _ _ Hids HA). simpl.
    by eexists.
Qed.

Lemma orphan_becomes_root_witness :
  ∃ b, fetchArticles scenarioB = Some b ∧
       "1" ∈ rootArticles b ∧
       (∃ n, firstPass scenarioB !! "1" = Some n ∧ childRefs n = []) ∧
       (∃ n, articleMap b !! "1" = Some n ∧
             nodeArticle n = sampleArticle "1" Null (Val "missing") 0).
Proof.
  destruct (orphan_becomes_root scenarioB
              (sampleArticle "1" Null (Val "missing") 0) "missing")
    as (b & Hb & Hroot & Hnew & Hnode).
  - left.
  - reflexivity.
  - intros B HB%list_elem_of_singleton. subst B. simpl. discriminate.
  - exists b. repeat split; try done. apply Hnode. apply NoDup_singleton.
Defined.


Lemma scenarioA_distinct_ids : NoDup (id <$> scenarioA).
Proof.
  simpl. apply NoDup_cons. split; [|apply NoDup_singleton].
  intros H%list_elem_of_singleton. discriminate H.
Defined.




(** A record that names itself as parent is pushed onto its own
    children: it is not in the root list and not among the children of
    another node. *)
Lemma self_parent_record_lost :
  let a := sampleArticle "1" Null (Val "1") 0 in
  fetchArticles [a] = Some (mkBuild {["1" := mkTreeNode a ["1"]]} []).
Proof. vm_compute. reflexivity. Qed.

(** Two records with one id share a single node object, which is pushed
    once for each of them: the first record's fields are gone. *)
Lemma duplicate_id_pushed_twice :
  let a := sampleArticle "1" (Val "old") Null 0 in
  let a' := sampleArticle "1" (Val "new") Null 0 in
  fetchArticles [a; a'] = Some (mkBuild {["1" := mkTreeNode a' []]} ["1"; "1"]).
Proof. vm_compute. reflexivity. Qed.

(** Scenario A of the root tree. *)
Lemma scenarioA_tree :
  ∃ b, fetchArticles scenarioA = Some b ∧
       readTree 3 (articleMap b) (rootArticles b)
       = Some [mkNode (sampleArticle "1" (Val "News") Null 0)
                 [mkNode (sampleArticle "2" (Val "News") (Val "1") 0) []]].
Proof. eexists. split; vm_compute; reflexivity. Qed.

(** ** The table view: main results *)

Lemma Qceiling_quotient (n p : Z) :
  0 < p →
  (Qceiling (inject_Z n / inject_Z p) - 1) * p < n
  ∧ n ≤ Qceiling (inject_Z n / inject_Z p) * p.
Proof.
  intros Hp. destruct p as [|q|q]; try lia.
  unfold Qceiling, Qfloor, Qdiv, Qmult, Qinv, Qopp, inject_Z. simpl.
  rewrite Z.mul_1_r, Pos.mul_1_l.
  pose proof (Z.div_mod (- n) (Z.pos q) ltac:(lia)) as Hdiv.
  pose proof (Z.mod_pos_bound (- n) (Z.pos q) ltac:(lia)) as Hmod.
  nia.
Qed.

Lemma slice_nil {A} (start finish : Z) : slice start finish (@nil A) = [].
Proof. unfold slice. by rewrite drop_nil, take_nil. Qed.

Section TableViewFacts.
Context (toLowerCase : string → string).

Lemma filteredArticles_nil st :
  (∀ n, n ∈ articles st → matchesFilters toLowerCase st n = false) →
  filteredArticles toLowerCase st = [].
Proof.
  intros Hnone. unfold filteredArticles.
  induction (articles st) as [|n l IH]; [done|].
  rewrite filter_cons_False.
  - apply IH. intros m Hm. apply Hnone. by right.
  - rewrite Hnone by left. done.
Qed.

(** C7. When the search query, category filter and status filter
    together match no record, the table view computes [totalPages = 0]
    and an empty page; nothing in the computation can fail.  In general
    the page count is the quotient of the match count by the page size,
    rounded up: the least number of pages that holds all matches. *)
Theorem no_match_no_pages st :
  0 < itemsPerPage st →
  ((∀ n, n ∈ articles st → matchesFilters toLowerCase st n = false) →
   totalPages toLowerCase st = 0 ∧ paginatedArticles toLowerCase st = []) ∧
  (totalPages toLowerCase st - 1) * itemsPerPage st
    < Z.of_nat (length (filteredArticles toLowerCase st))
    ≤ totalPages toLowerCase st * itemsPerPage st.
Proof.
  intros Hsize.
  pose proof (Qceiling_quotient
                (Z.of_nat (length (filteredArticles toLowerCase st)))
                (itemsPerPage st) Hsize) as Hceil.
  split; [|exact Hceil]. intros Hnone.
  unfold paginatedArticles. unfold totalPages in *.
  rewrite (filteredArticles_nil st Hnone) in *.
  change (Z.of_nat (length (@nil Node))) with 0 in *.
  split; [|apply slice_nil].
  set (pages := Qceiling _) in *. nia.
Qed.


End TableViewFacts.

Lemma no_match_no_pages_witness :
  totalPages asciiLowerCase scenarioD = 0 ∧
  paginatedArticles asciiLowerCase scenarioD = [].
Proof.
  destruct (no_match_no_pages asciiLowerCase scenarioD) as [Hnone _].
  - reflexivity.
  - apply Hnone. intros n Hn%list_elem_of_singleton. subst n. reflexivity.
Defined.


(** ** Status change: main results *)

Lemma applyUpdate_sameContent u row : sameContent row (applyUpdate u row).
Proof. by repeat split. Qed.

Lemma sameContent_refl row : sameContent row row.
Proof. by repeat split. Qed.

(** C9. [updateStatus(id, status)] changes nothing but [status] and
    [publishedAt] of the article with that id: [publishedAt] becomes the
    current time for 'published' and [null] for 'draft'.  All its other
    fields (title, slug, content, category, parentId, createdAt, authorId,
    featuredImage, imageAlt) and every other article of the store stay as
    they were; when the call fails the store is unchanged. *)
Theorem updateStatus_frame now key st table table' returned i row :
  updateStatus now key st table = (table', returned) →
  table !! i = Some row →
  length table' = length table ∧
  ∃ row', table' !! i = Some row' ∧
    sameContent row row' ∧
    (id row ≠ key → row' = row) ∧
    (returned = None → row' = row) ∧
    (id row = key → is_Some returned →
       returned = Some row' ∧
       status row' = st ∧
       publishedAt row' = match st with published => Val now | draft => Null end ∧
       updatedAt row' = updatedAt row).
Proof.
  unfold updateStatus, updateById. intros Hupd Hrow.
  destruct (filter (λ r, id r = key) table) as [|hit [|? ?]] eqn:Hhits;
    injection Hupd as <- <-.
  1,3: (split; [done|]; exists row; split; [done|];
        split; [apply sameContent_refl|]; repeat split; try done;
        by intros _ [? ?]).
  rewrite length_fmap. split; [done|].
  rewrite list_lookup_fmap, Hrow. simpl.
  destruct (decide (id row = key)) as [Hid|Hid].
  - eexists. split; [done|]. split; [apply applyUpdate_sameContent|].
    repeat split; try done.
    + assert (Hin : row ∈ filter (λ r, id r = key) table).
      { apply list_elem_of_filter. split; [done|].
        by eapply list_elem_of_lookup_2. }
      rewrite Hhits in Hin. apply list_elem_of_singleton in Hin. by subst.
    + simpl. by destruct st.
  - exists row. split; [done|]. split; [apply sameContent_refl|].
    repeat split; done.
Qed.

Lemma updateStatus_frame_witness :
  length (updateStatus 99 "2" published statusTable).1 = length statusTable ∧
  ∃ row', (updateStatus 99 "2" published statusTable).1 !! 1%nat = Some row' ∧
    sameContent (sampleArticle "2" (Val "News") (Val "1") 0) row' ∧
    (updateStatus 99 "2" published statusTable).2 = Some row' ∧
    status row' = published ∧ publishedAt row' = Val 99 ∧ updatedAt row' = 0.
Proof.
  destruct (updateStatus_frame 99 "2" published statusTable
              (updateStatus 99 "2" published statusTable).1
              (updateStatus 99 "2" published statusTable).2 1%nat
              (sampleArticle "2" (Val "News") (Val "1") 0))
    as (Hlen & row' & Hrow' & Hsame & _ & _ & Hhit).
  - apply surjective_pairing.
  - reflexivity.
  - split; [exact Hlen|]. exists row'. split; [exact Hrow'|].
    split; [exact Hsame|]. apply Hhit; [reflexivity|].
    vm_compute. eexists. reflexivity.
Defined.

(** ** Slugs *)

Lemma isSlugChar_not_dash c : isSlugChar c = true → isDash c = false.
Proof.
  intros Hc. unfold isDash. apply bool_decide_eq_false. intros ->.
  vm_compute in Hc. discriminate.
Qed.

Lemma isDash_eq c : isDash c = true → c = "-"%char.
Proof. unfold isDash. apply bool_decide_eq_true. Qed.

Lemma replaceRuns_onlySlugOrDash inRun s :
  onlySlugOrDash (replaceRuns inRun s) = true.
Proof.
  revert inRun. induction s as [|c s IH]; intros inRun; simpl; [done|].
  destruct (isSlugChar c) eqn:Hc; simpl; [by rewrite Hc, IH|].
  destruct inRun; simpl; by rewrite IH.
Qed.

Lemma replaceRuns_after_run s : startsWithDash (replaceRuns true s) = false.
Proof.
  induction s as [|c s IH]; simpl; [done|].
  destruct (isSlugChar c) eqn:Hc; simpl; [by apply isSlugChar_not_dash|done].
Qed.

Lemma replaceRuns_noDoubleDash inRun s :
  noDoubleDash (replaceRuns inRun s) = true.
Proof.
  revert inRun. induction s as [|c s IH]; intros inRun; simpl; [done|].
  destruct (isSlugChar c) eqn:Hc; simpl.
  - by rewrite (isSlugChar_not_dash c Hc), IH.
  - destruct inRun; simpl; [done|]. by rewrite replaceRuns_after_run, IH.
Qed.

Lemma replaceRuns_slugChars inRun s :
  slugChars (replaceRuns inRun s) = slugChars s.
Proof.
  revert inRun. induction s as [|c s IH]; intros inRun; simpl; [done|].
  destruct (isSlugChar c) eqn:Hc; simpl; [by rewrite Hc, IH|].
  destruct inRun; simpl; by rewrite IH.
Qed.

Lemma dropLeadingDash_spec s :
  onlySlugOrDash s = true → noDoubleDash s = true →
  onlySlugOrDash (dropLeadingDash s) = true ∧
  noDoubleDash (dropLeadingDash s) = true ∧
  startsWithDash (dropLeadingDash s) = false ∧
  slugChars (dropLeadingDash s) = slugChars s.
Proof.
  destruct s as [|c s]; simpl; [done|].
  intros [Hc Hs]%andb_prop [Hcc Hss]%andb_prop.
  destruct (isDash c) eqn:Hd; simpl in *.
  - repeat split; try done.
    + by destruct (startsWithDash s).
    + destruct (isSlugChar c) eqn:Hsc; [|done].
      by rewrite (isSlugChar_not_dash c Hsc) in Hd.
  - rewrite ?Hd, Hc, Hs, Hss. by repeat split.
Qed.

Lemma dropTrailingDash_spec s :
  onlySlugOrDash s = true → noDoubleDash s = true →
  onlySlugOrDash (dropTrailingDash s) = true ∧
  noDoubleDash (dropTrailingDash s) = true ∧
  (startsWithDash s = false → startsWithDash (dropTrailingDash s) = false) ∧
  endsWithDash (dropTrailingDash s) = false ∧
  slugChars (dropTrailingDash s) = slugChars s.
Proof.
  induction s as [|c s IH]; [done|].
  intros Honly Hnodd. pose proof Honly as Honly'. pose proof Hnodd as Hnodd'.
  simpl in Honly', Hnodd'.
  apply andb_prop in Honly' as [Hc Hs]. apply andb_prop in Hnodd' as [Hcc Hss].
  destruct (IH Hs Hss) as (IH1 & IH2 & IH3 & IH4 & IH5).
  destruct s as [|d s].
  - simpl. destruct (isDash c) eqn:Hd; simpl.
    + repeat split; try done.
      destruct (isSlugChar c) eqn:Hsc; [|done].
      by rewrite (isSlugChar_not_dash c Hsc) in Hd.
    + rewrite !Hd, Hc. by repeat split.
  - change (dropTrailingDash (String c (String d s)))
      with (String c (dropTrailingDash (String d s))).
    remember (dropTrailingDash (String d s)) as rest eqn:Hrest.
    assert (Hd : isDash c = true → isDash d = false).
    { intros Hd. simpl in Hcc. rewrite Hd in Hcc. by destruct (isDash d). }
    simpl. rewrite Hc, IH1, IH2, IH5. simpl. repeat split; try done.
    + destruct (isDash c) eqn:Hdc; [|done]. simpl. rewrite IH3; [done|].
      simpl. by apply Hd.
    + destruct rest as [|e rest']; [|exact IH4].
      destruct (isDash c) eqn:Hdc; [|done]. exfalso.
      specialize (Hd eq_refl).
      destruct s as [|e s]; simpl in Hrest; [by rewrite Hd in Hrest|done].
Qed.

Section SlugFacts.
Context (toLowerCase : string → string).

Lemma generateSlug_shape title :
  wellFormedSlug (generateSlug toLowerCase title) = true.
Proof.
  unfold generateSlug, wellFormedSlug.
  set (s := replaceRuns false (toLowerCase title)).
  destruct (dropLeadingDash_spec s) as (H1 & H2 & H3 & _);
    [apply replaceRuns_onlySlugOrDash|apply replaceRuns_noDoubleDash|].
  destruct (dropTrailingDash_spec _ H1 H2) as (H4 & H5 & H6 & H7 & _).
  by rewrite H4, H5, (H6 H3), H7.
Qed.

(** A generated slug is made of lower-case letters, digits and dashes,
    has no dash at either end and no two dashes in a row, whatever the
    title. *)
Theorem generateSlug_wellFormed title :
  onlySlugOrDash (generateSlug toLowerCase title) = true ∧
  noDoubleDash (generateSlug toLowerCase title) = true ∧
  startsWithDash (generateSlug toLowerCase title) = false ∧
  endsWithDash (generateSlug toLowerCase title) = false.
Proof.
  pose proof (generateSlug_shape title) as Hwf. unfold wellFormedSlug in Hwf.
  apply andb_prop in Hwf as [[[Honly Hnodd]%andb_prop Hstart]%andb_prop Hend].
  by apply negb_true_iff in Hstart, Hend.
Qed.

(** The slug keeps the letters and digits of the lower-cased title, all
    of them and in order; it is empty exactly when there are none. *)
Theorem generateSlug_keeps_alphanumerics title :
  slugChars (generateSlug toLowerCase title) = slugChars (toLowerCase title) ∧
  (generateSlug toLowerCase title = "" ↔ slugChars (toLowerCase title) = []).
Proof.
  assert (Hkeep : slugChars (generateSlug toLowerCase title)
                  = slugChars (toLowerCase title)).
  { unfold generateSlug.
    set (s := replaceRuns false (toLowerCase title)).
    destruct (dropLeadingDash_spec s) as (H1 & H2 & _ & H3);
      [apply replaceRuns_onlySlugOrDash|apply replaceRuns_noDoubleDash|].
    destruct (dropTrailingDash_spec _ H1 H2) as (_ & _ & _ & _ & H4).
    rewrite H4, H3. apply replaceRuns_slugChars. }
  split; [done|]. rewrite <- Hkeep.
  pose proof (generateSlug_shape title) as Hwf.
  destruct (generateSlug toLowerCase title) as [|c s]; [done|].
  split; [done|]. simpl. intros Hnone. exfalso.
  unfold wellFormedSlug in Hwf. simpl in Hwf.
  destruct (isSlugChar c); [done|]. simpl in Hwf.
  destruct (isDash c); simpl in Hwf; [|done].
  by rewrite andb_false_r in Hwf.
Qed.
End SlugFacts.

Lemma replaceRuns_fixed inRun s :
  onlySlugOrDash s = true → noDoubleDash s = true →
  (inRun = true → startsWithDash s = false) →
  replaceRuns inRun s = s.
Proof.
  revert inRun. induction s as [|c s IH]; intros inRun; simpl; [done|].
  intros [Hc Hs]%andb_prop [Hcc Hss]%andb_prop Hrun.
  destruct (isSlugChar c) eqn:Hsc; [by rewrite IH|].
  simpl in Hc. rewrite Hc in Hcc, Hrun. simpl in Hcc.
  destruct inRun; [by specialize (Hrun eq_refl)|].
  rewrite (isDash_eq c Hc). f_equal. apply IH; [done..|].
  intros _. by destruct (startsWithDash s).
Qed.

Lemma dropLeadingDash_fixed s : startsWithDash s = false → dropLeadingDash s = s.
Proof. destruct s as [|c s]; simpl; [done|]. by intros ->. Qed.

Lemma dropTrailingDash_fixed s : endsWithDash s = false → dropTrailingDash s = s.
Proof.
  induction s as [|c s IH]; [done|]. destruct s as [|d s].
  - simpl. by intros ->.
  - intros Hend.
    change (dropTrailingDash (String c (String d s)))
      with (String c (dropTrailingDash (String d s))).
    by rewrite IH.
Qed.

Lemma asciiLowerChar_fixed c :
  isSlugChar c || isDash c = true → asciiLowerChar c = c.
Proof.
  destruct c as [[] [] [] [] [] [] [] []]; vm_compute; intros H;
    solve [reflexivity | discriminate H].
Qed.

(** The ASCII lower-casing leaves slugs alone, as [toLowerCase] does. *)
Lemma asciiLowerCase_fixed s : wellFormedSlug s = true → asciiLowerCase s = s.
Proof.
  unfold wellFormedSlug. intros [[[Honly _]%andb_prop _]%andb_prop _]%andb_prop.
  induction s as [|c s IH]; [done|].
  simpl in *. apply andb_prop in Honly as [Hc Hs].
  by rewrite (asciiLowerChar_fixed c Hc), IH.
Defined.

Section SlugFixedPoints.
Context (toLowerCase : string → string).

(** Slugs are the fixed points of [generateSlug]: a well-formed slug
    that lower-casing leaves alone is returned unchanged, so generating
    a slug from a generated slug changes nothing. *)
Theorem generateSlug_idempotent :
  (∀ s, wellFormedSlug s = true → toLowerCase s = s) →
  (∀ s, wellFormedSlug s = true → generateSlug toLowerCase s = s) ∧
  (∀ title, generateSlug toLowerCase (generateSlug toLowerCase title)
            = generateSlug toLowerCase title).
Proof.
  intros Hlower.
  assert (Hfixed : ∀ s, wellFormedSlug s = true → generateSlug toLowerCase s = s).
  { intros s Hwf. unfold generateSlug. rewrite (Hlower s Hwf).
    unfold wellFormedSlug in Hwf.
    apply andb_prop in Hwf as [[[Honly Hnodd]%andb_prop Hstart]%andb_prop Hend].
    apply negb_true_iff in Hstart, Hend.
    rewrite replaceRuns_fixed by done.
    by rewrite dropLeadingDash_fixed, dropTrailingDash_fixed. }
  split; [done|]. intros title. apply Hfixed, generateSlug_shape.
Qed.
End SlugFixedPoints.

Lemma generateSlug_idempotent_witness :
  generateSlug asciiLowerCase "hello-world-2024" = "hello-world-2024" ∧
  generateSlug asciiLowerCase (generateSlug asciiLowerCase "  Hello, World! 2024 ")
  = generateSlug asciiLowerCase "  Hello, World! 2024 ".
Proof.
  destruct (generateSlug_idempotent asciiLowerCase asciiLowerCase_fixed)
    as [Hfixed Hidem].
  split; [by apply Hfixed|apply Hidem].
Defined.

Example generateSlug_examples :
  generateSlug asciiLowerCase "  Hello, World! 2024 " = "hello-world-2024" ∧
  generateSlug asciiLowerCase "---" = "" ∧
  generateSlug asciiLowerCase "C++ & Rust" = "c-rust" ∧
  generateSlug asciiLowerCase "" = "".
Proof. repeat split. Qed.

(** ** Relative times *)

Section RelativeTimeFacts.
Context (formatDate : Z → string).

(** What [formatRelativeTime] prints is decided by the elapsed
    milliseconds alone.  Under one hour, and for any instant still to
    come, it is "Just now"; under a day it is the whole hours elapsed,
    between 1 and 23; under a week the whole days elapsed, between 1 and
    6; from a week on the date itself.  "hour" and "day" are singular
    exactly for 1. *)
Theorem formatRelativeTime_ranges now date :
  let elapsed := now - date in
  (elapsed < 3600000 → formatRelativeTime formatDate now date = "Just now") ∧
  (3600000 ≤ elapsed < 86400000 →
     1 ≤ elapsed `div` 3600000 ≤ 23 ∧
     formatRelativeTime formatDate now date
     = pretty (elapsed `div` 3600000) +:+ " hour"
       +:+ (if decide (elapsed `div` 3600000 = 1) then "" else "s") +:+ " ago") ∧
  (86400000 ≤ elapsed < 604800000 →
     1 ≤ elapsed `div` 86400000 ≤ 6 ∧
     formatRelativeTime formatDate now date
     = pretty (elapsed `div` 86400000) +:+ " day"
       +:+ (if decide (elapsed `div` 86400000 = 1) then "" else "s") +:+ " ago") ∧
  (604800000 ≤ elapsed →
     formatRelativeTime formatDate now date = formatDate date).
Proof.
  intros elapsed. unfold formatRelativeTime. fold elapsed.
  change (1000 * 60 * 60) with 3600000. change (24 * 7) with 168.
  set (h := elapsed `div` 3600000).
  assert (Hh : 3600000 * h ≤ elapsed < 3600000 * h + 3600000).
  { pose proof (Z.div_mod elapsed 3600000 ltac:(lia)).
    pose proof (Z.mod_pos_bound elapsed 3600000 ltac:(lia)). subst h. lia. }
  assert (Hd : elapsed `div` 86400000 = h `div` 24).
  { subst h. rewrite Z.div_div by lia. done. }
  repeat split.
  - intros Hlt. destruct (h <? 1) eqn:E; [done|]. apply Z.ltb_ge in E. lia.
  - lia.
  - lia.
  - destruct H as [Hlo Hhi].
    destruct (h <? 1) eqn:E1; [apply Z.ltb_lt in E1; lia|].
    destruct (h <? 24) eqn:E2; [|apply Z.ltb_ge in E2; lia].
    destruct (1 <? h) eqn:E3; case_decide; try done.
    + apply Z.ltb_lt in E3. lia.
    + apply Z.ltb_ge in E3. apply Z.ltb_ge in E1. lia.
  - rewrite Hd. destruct H as [Hlo Hhi].
    assert (24 ≤ h) by lia. apply Z.div_le_lower_bound; lia.
  - rewrite Hd. destruct H as [Hlo Hhi].
    assert (h < 168) by lia. apply Z.lt_succ_r. apply Z.div_lt_upper_bound; lia.
  - rewrite Hd. destruct H as [Hlo Hhi].
    destruct (h <? 1) eqn:E1; [apply Z.ltb_lt in E1; lia|].
    destruct (h <? 24) eqn:E2; [apply Z.ltb_lt in E2; lia|].
    destruct (h <? 168) eqn:E3; [|apply Z.ltb_ge in E3; lia].
    destruct (1 <? h `div` 24) eqn:E4; case_decide; try done.
    + apply Z.ltb_lt in E4. lia.
    + apply Z.ltb_ge in E4.
      assert (1 ≤ h `div` 24) by (apply Z.div_le_lower_bound; lia). lia.
  - intros Hge.
    destruct (h <? 1) eqn:E1; [apply Z.ltb_lt in E1; lia|].
    destruct (h <? 24) eqn:E2; [apply Z.ltb_lt in E2; lia|].
    destruct (h <? 168) eqn:E3; [apply Z.ltb_lt in E3; lia|]. done.
Qed.
End RelativeTimeFacts.

Lemma formatRelativeTime_ranges_witness :
  formatRelativeTime (λ _, "Jan 1, 2024") 1000 5000 = "Just now" ∧
  formatRelativeTime (λ _, "Jan 1, 2024") 7200000 0 = "2 hours ago" ∧
  formatRelativeTime (λ _, "Jan 1, 2024") 90000000 0 = "1 day ago" ∧
  formatRelativeTime (λ _, "Jan 1, 2024") 604800000 0 = "Jan 1, 2024".
Proof.
  destruct (formatRelativeTime_ranges (λ _, "Jan 1, 2024") 1000 5000)
    as (Hnow & _).
  destruct (formatRelativeTime_ranges (λ _, "Jan 1, 2024") 7200000 0)
    as (_ & Hhours & _).
  destruct (formatRelativeTime_ranges (λ _, "Jan 1, 2024") 90000000 0)
    as (_ & _ & Hdays & _).
  destruct (formatRelativeTime_ranges (λ _, "Jan 1, 2024") 604800000 0)
    as (_ & _ & _ & Hdate).
  split; [apply Hnow; reflexivity|].
  split; [apply Hhours; split; [discriminate|reflexivity]|].
  split; [apply Hdays; split; [discriminate|reflexivity]|].
  apply Hdate. discriminate.
Defined.

(** ** Completeness bar *)

Section ProgressFacts.
Context (codeUnits : string → Z).

(** The bar shows 25 for each of the four tests an article passes
    (title, more than 100 characters of content, category, featured
    image).  It is green only when all four pass, yellow for three,
    orange for two and red otherwise. *)
Theorem progress_colour article :
  getProgressPercentage codeUnits article = 25 * criteriaMet codeUnits article ∧
  getProgressColor (getProgressPercentage codeUnits article)
  = match criteriaMet codeUnits article with
    | 4 => "bg-green-500"
    | 3 => "bg-yellow-500"
    | 2 => "bg-orange-500"
    | _ => "bg-red-500"
    end.
Proof.
  unfold getProgressPercentage, criteriaMet.
  destruct (hasTitle article), (hasLongContent codeUnits article),
    (truthy (category article)), (truthy (featuredImage article));
    by vm_compute.
Qed.
End ProgressFacts.

(** ** Rows of the hierarchical table *)

Lemma flat_map_Forall_ext {A B} (f g : A → list B) (l : list A) :
  Forall (λ x, f x = g x) l → flat_map f l = flat_map g l.
Proof. induction 1 as [|x l Hx _ IH]; simpl; [done|]. by rewrite Hx, IH. Qed.

Lemma flat_map_Forall_sublist {A B} (f g : A → list B) (l : list A) :
  Forall (λ x, f x `sublist_of` g x) l → flat_map f l `sublist_of` flat_map g l.
Proof.
  induction 1 as [|x l Hx _ IH]; simpl; [done|]. by apply sublist_app.
Qed.

Lemma fmap_flat_map {A B C} (h : B → C) (f : A → list B) (l : list A) :
  h <$> flat_map f l = flat_map (λ x, h <$> f x) l.
Proof. induction l as [|x l IH]; simpl; [done|]. by rewrite fmap_app, IH. Qed.

Lemma toggleExpanded_other (expandedNodes : gset string) k k' :
  k' ≠ k → k' ∈ toggleExpanded expandedNodes k ↔ k' ∈ expandedNodes.
Proof. intros Hne. unfold toggleExpanded. case_decide; set_solver. Qed.

Lemma collectIds_nodes n : collectIds n = id ∘ node_article <$> nodes n.
Proof.
  induction n as [a cs IH] using Node_forall_ind. simpl. f_equal.
  rewrite fmap_flat_map. by apply flat_map_Forall_ext.
Qed.

Lemma renderTableRow_mono (E E' : gset string) n level :
  E ⊆ E' → renderTableRow E level n `sublist_of` renderTableRow E' level n.
Proof.
  intros Hsub. revert level.
  induction n as [a cs IH] using Node_forall_ind. intros level. simpl.
  apply sublist_skip.
  destruct (bool_decide (cs ≠ [])); simpl; [|done].
  destruct (decide (id a ∈ E)) as [Hin|Hout].
  - rewrite !bool_decide_eq_true_2 by set_solver.
    apply flat_map_Forall_sublist. eapply Forall_impl; [exact IH|].
    simpl. auto.
  - rewrite (bool_decide_eq_false_2 (id a ∈ E)) by done. apply sublist_nil_l.
Qed.

Lemma renderTableRow_all (E : gset string) n level :
  (∀ k, k ∈ collectIds n → k ∈ E) →
  (renderTableRow E level n).*1 = node_article <$> nodes n.
Proof.
  revert level. induction n as [a cs IH] using Node_forall_ind.
  intros level Hall. simpl. f_equal.
  rewrite (bool_decide_eq_true_2 (id a ∈ E)) by (apply Hall; left).
  rewrite andb_true_r, (fmap_flat_map node_article).
  assert (Hcs : (flat_map (renderTableRow E (S level)) cs).*1
                = flat_map (λ c, node_article <$> nodes c) cs).
  { rewrite fmap_flat_map. apply flat_map_Forall_ext.
    apply list.Forall_forall. intros c Hc.
    rewrite list.Forall_forall in IH. apply IH; [done|].
    intros k Hk. apply Hall. simpl. right.
    apply elem_of_flat_map. eauto. }
  destruct cs as [|c cs]; [done|]. by rewrite bool_decide_eq_true_2.
Qed.

Lemma renderTableRow_within (E : gset string) n level :
  (renderTableRow E level n).*1 `sublist_of` node_article <$> nodes n.
Proof.
  revert level. induction n as [a cs IH] using Node_forall_ind.
  intros level. simpl. apply sublist_skip.
  rewrite (fmap_flat_map node_article).
  destruct (_ && _); simpl; [|apply sublist_nil_l].
  rewrite fmap_flat_map. apply flat_map_Forall_sublist.
  eapply Forall_impl; [exact IH|]. simpl. auto.
Qed.

Lemma renderTableRow_toggle (E : gset string) k n level :
  (∀ m, m ∈ nodes n → id (node_article m) = k → node_children m = []) →
  renderTableRow (toggleExpanded E k) level n = renderTableRow E level n.
Proof.
  revert level. induction n as [a cs IH] using Node_forall_ind.
  intros level Hleaf. simpl. f_equal.
  destruct (decide (id a = k)) as [Hk|Hk].
  - rewrite (Hleaf (mkNode a cs) (nodes_self _) Hk : cs = []). done.
  - assert (Hsame : bool_decide (id a ∈ toggleExpanded E k)
                    = bool_decide (id a ∈ E)).
    { apply bool_decide_ext. by apply toggleExpanded_other. }
    rewrite Hsame. destruct (_ && _); [|done].
    apply flat_map_Forall_ext. apply list.Forall_forall. intros c Hc.
    rewrite list.Forall_forall in IH. apply IH; [done|].
    intros m Hm. apply Hleaf. simpl. right. apply elem_of_flat_map. eauto.
Qed.

(** Expanding more nodes never removes a row: the rows shown for a set of
    expanded nodes are a sub-sequence of those shown for any larger set.
    With everything collapsed, as at the start, the rows are the root
    articles, each at level 0. *)
Theorem tableRows_monotone (E E' : gset string) roots :
  E ⊆ E' →
  tableRows E roots `sublist_of` tableRows E' roots ∧
  tableRows collapseAll roots = (λ n, (node_article n, 0%nat)) <$> roots.
Proof.
  intros Hsub. split.
  - apply flat_map_Forall_sublist, list.Forall_forall.
    intros n _. by apply renderTableRow_mono.
  - unfold tableRows, collapseAll.
    induction roots as [|[a cs] roots IH]; [done|].
    simpl. rewrite IH, (bool_decide_eq_false_2 (id a ∈ ∅)) by set_solver.
    by rewrite andb_false_r.
Qed.

Lemma tableRows_monotone_witness :
  tableRows ∅ [mkNode (sampleArticle "1" Null Null 0)
                 [mkNode (sampleArticle "2" Null (Val "1") 0) []]]
  `sublist_of`
  tableRows {["1"]} [mkNode (sampleArticle "1" Null Null 0)
                       [mkNode (sampleArticle "2" Null (Val "1") 0) []]].
Proof.
  apply (tableRows_monotone ∅ {["1"]}). apply empty_subseteq.
Defined.

(** After [expandAll] the expanded keys are exactly the ids of the
    articles of the tree (any key expanded before, a category header for
    one, is gone) and the table shows every article of the tree, parents
    before their children. *)
Theorem expandAll_shows_all roots :
  (∀ k, k ∈ expandAll roots ↔
        ∃ n, n ∈ flat_map nodes roots ∧ id (node_article n) = k) ∧
  (tableRows (expandAll roots) roots).*1 = articlesOf roots.
Proof.
  assert (Hmem : ∀ k, k ∈ expandAll roots ↔
                      ∃ n, n ∈ flat_map nodes roots ∧ id (node_article n) = k).
  { intros k. unfold expandAll. rewrite elem_of_list_to_set, elem_of_flat_map.
    setoid_rewrite collectIds_nodes. setoid_rewrite list_elem_of_fmap.
    setoid_rewrite elem_of_flat_map. simpl. naive_solver. }
  split; [done|]. unfold tableRows, articlesOf.
  rewrite !fmap_flat_map. apply flat_map_Forall_ext, list.Forall_forall.
  intros r Hr. apply renderTableRow_all. intros k Hk. apply Hmem.
  rewrite collectIds_nodes in Hk.
  apply list_elem_of_fmap in Hk as (m & -> & Hm).
  exists m. split; [|done]. apply elem_of_flat_map. eauto.
Qed.

(** Whatever is expanded, the articles in the rows are a sub-sequence of
    the articles of the tree: no row shows an article that is not in the
    tree, and none is shown more often than it is in the tree. *)
Theorem tableRows_within_tree (E : gset string) roots :
  (tableRows E roots).*1 `sublist_of` articlesOf roots.
Proof.
  unfold tableRows, articlesOf. rewrite !fmap_flat_map.
  apply flat_map_Forall_sublist, list.Forall_forall.
  intros n _. apply renderTableRow_within.
Qed.

(** Toggling a key changes the rows only if it is the id of an article
    that has children: toggling a leaf, or a key no article has (a
    category header), leaves the table as it is. *)
Theorem toggle_leaf_keeps_rows (E : gset string) k roots :
  (∀ n, n ∈ flat_map nodes roots → id (node_article n) = k →
        node_children n = []) →
  tableRows (toggleExpanded E k) roots = tableRows E roots.
Proof.
  intros Hleaf. apply flat_map_Forall_ext, list.Forall_forall.
  intros r Hr. apply renderTableRow_toggle.
  intros m Hm. apply Hleaf. apply elem_of_flat_map. eauto.
Qed.

Lemma toggle_leaf_keeps_rows_witness :
  tableRows (toggleExpanded {["1"]} "category-News")
    [mkNode (sampleArticle "1" Null Null 0)
       [mkNode (sampleArticle "2" Null (Val "1") 0) []]]
  = tableRows {["1"]}
      [mkNode (sampleArticle "1" Null Null 0)
         [mkNode (sampleArticle "2" Null (Val "1") 0) []]].
Proof.
  apply toggle_leaf_keeps_rows. simpl. intros n Hn Hid.
  apply elem_of_cons in Hn as [->|Hn]; [discriminate Hid|].
  apply elem_of_cons in Hn as [->|Hn]; [discriminate Hid|].
  by apply elem_of_nil in Hn.
Defined.

Example tableRows_example :
  (λ r, (id r.1, r.2)) <$>
    tableRows {["1"]}
      [mkNode (sampleArticle "1" Null Null 0)
         [mkNode (sampleArticle "2" Null (Val "1") 0)
            [mkNode (sampleArticle "3" Null (Val "2") 0) []]];
       mkNode (sampleArticle "4" Null Null 0) []]
  = [("1", 0%nat); ("2", 1%nat); ("4", 0%nat)].
Proof. vm_compute. reflexivity. Qed.

(** ** Category options and the categories page *)

Lemma elem_of_setAdd members y x : x ∈ setAdd members y ↔ x ∈ members ∨ x = y.
Proof.
  unfold setAdd. case_decide.
  - naive_solver.
  - rewrite elem_of_app, list_elem_of_singleton. naive_solver.
Qed.

Lemma NoDup_setAdd members y : NoDup members → NoDup (setAdd members y).
Proof.
  intros Hnd. unfold setAdd. case_decide; [done|].
  apply NoDup_app. split; [done|]. split; [|apply NoDup_singleton].
  by intros x Hx ->%list_elem_of_singleton.
Qed.

Lemma foldl_setAdd members l :
  NoDup members →
  NoDup (foldl setAdd members l) ∧
  ∀ x, x ∈ foldl setAdd members l ↔ x ∈ members ∨ x ∈ l.
Proof.
  revert members. induction l as [|y l IH]; intros members Hnd; simpl.
  - split; [done|]. intros x. rewrite elem_of_nil. naive_solver.
  - destruct (IH (setAdd members y) (NoDup_setAdd _ _ Hnd)) as [IH1 IH2].
    split; [done|]. intros x.
    rewrite IH2, elem_of_setAdd, elem_of_cons. naive_solver.
Qed.

(** The buckets of the categorized hierarchy are the category keys that
    occur. *)
Lemma getCategorizedHierarchy_keys fuel fetched forest c :
  getCategorizedHierarchy fuel fetched = Returns forest →
  is_Some (forest !! c) ↔ ∃ a, a ∈ fetched ∧ categoryKey a = c.
Proof.
  unfold getCategorizedHierarchy.
  destruct (groupByCategory fetched) as [g|] eqn:Hg; [|done].
  case_decide as Hall; [|done]. intros [= <-].
  rewrite lookup_omap, lookup_fmap, (groupByCategory_lookup _ _ Hg).
  unfold bucketOf.
  destruct (filter (λ a, categoryKey a = c) fetched) as [|b bucket] eqn:Hf;
    simpl.
  - split; [by intros [? ?]|]. intros (a & Ha & Hkey).
    assert (Hin : a ∈ filter (λ a, categoryKey a = c) fetched)
      by by apply list_elem_of_filter.
    rewrite Hf in Hin. by apply elem_of_nil in Hin.
  - split.
    + intros _. exists b.
      assert (Hb : b ∈ filter (λ a, categoryKey a = c) fetched)
        by (rewrite Hf; left).
      apply list_elem_of_filter in Hb. naive_solver.
    + intros _.
      assert (Hl : ((λ bucket, buildHierarchy fuel bucket Null) <$> g) !! c
                   = Some (buildHierarchy fuel (b :: bucket) Null)).
      { rewrite lookup_fmap, (groupByCategory_lookup _ _ Hg).
        unfold bucketOf. by rewrite Hf. }
      destruct (map_Forall_lookup_1 _ _ _ _ Hall Hl) as [roots Hroots].
      rewrite Hroots. by eexists.
Qed.

Lemma categoryKey_cases a c :
  categoryKey a = c ↔
  (category a = Val c ∧ c ≠ "") ∨
  (c = "Uncategorized" ∧ truthy (category a) = false).
Proof.
  unfold categoryKey, truthy. destruct (category a) as [| |d]; [naive_solver..|].
  destruct (decide (d = "")); naive_solver.
Qed.

(** The category options are pairwise distinct and are exactly the
    non-empty categories of the fetched articles.  Each names a bucket of
    the categorized hierarchy; the only other bucket there can be is
    "Uncategorized", for the articles without a category. *)
Theorem uniqueCategories_spec fetched :
  NoDup (uniqueCategories fetched) ∧
  (∀ c, c ∈ uniqueCategories fetched ↔
        c ≠ "" ∧ ∃ a, a ∈ fetched ∧ category a = Val c) ∧
  (∀ fuel forest c,
     getCategorizedHierarchy fuel fetched = Returns forest →
     is_Some (forest !! c) ↔
     c ∈ uniqueCategories fetched ∨
     (c = "Uncategorized" ∧ ∃ a, a ∈ fetched ∧ truthy (category a) = false)).
Proof.
  destruct (foldl_setAdd [] (omap truthyCategory fetched) (NoDup_nil_2))
    as [Hnd Hmem].
  assert (Hspec : ∀ c, c ∈ uniqueCategories fetched ↔
                       c ≠ "" ∧ ∃ a, a ∈ fetched ∧ category a = Val c).
  { intros c. unfold uniqueCategories. rewrite Hmem, elem_of_nil, list_elem_of_omap.
    unfold truthyCategory. split.
    - intros [[]|(a & Ha & Hc)].
      destruct (category a) as [| |d] eqn:Hcat; try done.
      destruct (decide (d = "")); [done|]. injection Hc as ->. eauto.
    - intros (Hne & a & Ha & Hc). right. exists a. split; [done|].
      rewrite Hc. by rewrite decide_False. }
  split; [done|]. split; [done|]. intros fuel forest c Hf.
  rewrite (getCategorizedHierarchy_keys _ _ _ _ Hf), Hspec.
  setoid_rewrite categoryKey_cases. naive_solver.
Qed.

Lemma uniqueCategories_spec_witness :
  uniqueCategories scenarioC = ["A"; "B"] ∧
  ∃ forest, getCategorizedHierarchy 2 scenarioC = Returns forest ∧
            (is_Some (forest !! "B") ↔
             "B" ∈ uniqueCategories scenarioC ∨
             ("B" = "Uncategorized" ∧
              ∃ a, a ∈ scenarioC ∧ truthy (category a) = false)).
Proof.
  split; [reflexivity|]. eexists. split; [vm_compute; reflexivity|].
  destruct (uniqueCategories_spec scenarioC) as (_ & _ & Hkeys).
  apply (Hkeys 2%nat). vm_compute. reflexivity.
Defined.

Lemma uniqueKeys_spec fetched :
  NoDup (uniqueKeys fetched) ∧
  ∀ c, c ∈ uniqueKeys fetched ↔ ∃ a, a ∈ fetched ∧ categoryKey a = c.
Proof.
  destruct (foldl_setAdd [] (categoryKey <$> fetched) (NoDup_nil_2))
    as [Hnd Hmem].
  split; [done|]. intros c. unfold uniqueKeys.
  rewrite Hmem, elem_of_nil, list_elem_of_fmap. naive_solver.
Qed.

Lemma uniqueKeys_snoc l a :
  uniqueKeys (l ++ [a]) = setAdd (uniqueKeys l) (categoryKey a).
Proof. unfold uniqueKeys. by rewrite fmap_app, foldl_app. Qed.

Lemma categoryEntry_snoc_same l a :
  categoryEntry (l ++ [a]) (categoryKey a)
  = mkCategoryStats (categoryKey a)
      (statsCount (categoryEntry l (categoryKey a)) + 1)
      (statsArticles (categoryEntry l (categoryKey a))
       ++ [mkArticleRef (id a) (title a) (createdAt a)]).
Proof.
  unfold categoryEntry. simpl.
  rewrite filter_app, filter_cons_True, filter_nil by done.
  rewrite length_app, fmap_app. simpl. f_equal. lia.
Qed.

Lemma categoryEntry_snoc_other l a name :
  categoryKey a ≠ name → categoryEntry (l ++ [a]) name = categoryEntry l name.
Proof.
  intros Hne. unfold categoryEntry.
  by rewrite filter_app, filter_cons_False, filter_nil, app_nil_r.
Qed.

Lemma filter_none {A} (P : A → Prop) `{∀ x, Decision (P x)} (l : list A) :
  (∀ x, x ∈ l → ¬ P x) → filter P l = [].
Proof.
  induction l as [|x l IH]; intros Hnone; [done|].
  rewrite filter_cons_False by (apply Hnone; left).
  apply IH. intros y Hy. apply Hnone. by right.
Qed.

Lemma categoryEntry_absent l name :
  name ∉ uniqueKeys l → categoryEntry l name = mkCategoryStats name 0 [].
Proof.
  intros Hout. unfold categoryEntry. rewrite filter_none; [done|].
  intros b Hb Hkey. apply Hout, uniqueKeys_spec. eauto.
Qed.

(** The grouping loop in closed form: one entry per category name, in
    order of first appearance, holding that category's articles in
    input order. *)
Lemma countArticle_closed_form fetched :
  foldl countArticle [] fetched = categoryEntry fetched <$> uniqueKeys fetched.
Proof.
  induction fetched as [|a l IH] using rev_ind; [done|].
  rewrite foldl_app, IH, uniqueKeys_snoc. simpl.
  assert (Hupdate : ∀ names : list string,
    (λ c, if decide (statsName c = categoryKey a)
          then mkCategoryStats (statsName c) (statsCount c + 1)
                 (statsArticles c
                  ++ [mkArticleRef (id a) (title a) (createdAt a)])
          else c) <$> (categoryEntry l <$> names)
    = categoryEntry (l ++ [a]) <$> names).
  { intros names. rewrite <- list_fmap_compose. apply list_fmap_ext.
    intros _ name _. simpl. case_decide as Hname.
    - subst name. by rewrite categoryEntry_snoc_same.
    - by rewrite categoryEntry_snoc_other. }
  assert (Hnames : ∀ names : list string,
             statsName <$> (categoryEntry l <$> names) = names).
  { intros names.
    induction names as [|n names IHn]; [done|]. simpl. f_equal. exact IHn. }
  unfold countArticle, setAdd. rewrite Hnames.
  destruct (decide (categoryKey a ∈ uniqueKeys l)) as [Hin|Hout].
  - apply Hupdate.
  - rewrite !fmap_app, Hupdate. f_equal. simpl.
    rewrite decide_True by done.
    by rewrite categoryEntry_snoc_same, (categoryEntry_absent l _ Hout).
Qed.

(** ** The categories page ([fetchCategories]) *)

Lemma totalCount_Permutation l l' : l ≡ₚ l' → totalCount l = totalCount l'.
Proof. unfold totalCount. induction 1; simpl in *; lia. Qed.

Lemma totalCount_sortArticles l : totalCount (sortArticles <$> l) = totalCount l.
Proof.
  unfold totalCount. induction l as [|c l IH]; [done|].
  cbn [fmap list_fmap foldr] in *. by rewrite IH.
Qed.

Lemma totalCount_entries_skip a l (names : list string) :
  categoryKey a ∉ names →
  totalCount (categoryEntry (a :: l) <$> names)
  = totalCount (categoryEntry l <$> names).
Proof.
  unfold totalCount. induction names as [|n names IH]; intros Hout; [done|].
  apply not_elem_of_cons in Hout as [Hne Hout].
  cbn [fmap list_fmap foldr] in *. rewrite (IH Hout). f_equal.
  unfold categoryEntry. simpl. by rewrite filter_cons_False.
Qed.

Lemma totalCount_entries_cons a l (names : list string) :
  NoDup names → categoryKey a ∈ names →
  totalCount (categoryEntry (a :: l) <$> names)
  = 1 + totalCount (categoryEntry l <$> names).
Proof.
  induction names as [|n names IH]; intros Hnd Hin.
  - by apply elem_of_nil in Hin.
  - apply NoDup_cons in Hnd as [Hn Hnd].
    change (totalCount (categoryEntry (a :: l) <$> n :: names))
      with (statsCount (categoryEntry (a :: l) n)
            + totalCount (categoryEntry (a :: l) <$> names)).
    change (totalCount (categoryEntry l <$> n :: names))
      with (statsCount (categoryEntry l n)
            + totalCount (categoryEntry l <$> names)).
    destruct (decide (categoryKey a = n)) as [Heq|Hne].
    + rewrite totalCount_entries_skip by by rewrite Heq.
      unfold categoryEntry. cbn [statsCount].
      rewrite filter_cons_True by done. cbn [length]. lia.
    + apply elem_of_cons in Hin as [?|Hin]; [done|].
      rewrite (IH Hnd Hin). unfold categoryEntry. cbn [statsCount].
      rewrite filter_cons_False by done. lia.
Qed.

Lemma totalCount_entries l (names : list string) :
  NoDup names → (∀ a, a ∈ l → categoryKey a ∈ names) →
  totalCount (categoryEntry l <$> names) = Z.of_nat (length l).
Proof.
  intros Hnd. induction l as [|a l IH]; intros Hcover.
  - clear. unfold totalCount. induction names as [|n names IHn]; [done|].
    cbn [fmap list_fmap foldr]. by rewrite IHn.
  - rewrite totalCount_entries_cons by (done || apply Hcover; left).
    rewrite IH by (intros b Hb; apply Hcover; by right).
    cbn [length]. lia.
Qed.

Lemma fetchCategories_Permutation fetched :
  fetchCategories fetched
  ≡ₚ sortArticles <$> (categoryEntry fetched <$> uniqueKeys fetched).
Proof.
  unfold fetchCategories. by rewrite sort_Permutation, countArticle_closed_form.
Qed.

Lemma elem_of_fetchCategories fetched c :
  c ∈ fetchCategories fetched ↔
  ∃ name, name ∈ uniqueKeys fetched
          ∧ c = sortArticles (categoryEntry fetched name).
Proof.
  rewrite fetchCategories_Permutation, list_elem_of_fmap.
  setoid_rewrite list_elem_of_fmap. naive_solver.
Qed.

Lemma fetchCategories_names fetched :
  statsName <$> fetchCategories fetched ≡ₚ uniqueKeys fetched.
Proof.
  rewrite fetchCategories_Permutation.
  induction (uniqueKeys fetched) as [|n names IH]; [done|].
  cbn [fmap list_fmap] in *. by constructor.
Qed.

Lemma fetchCategories_name_iff fetched name :
  name ∈ statsName <$> fetchCategories fetched ↔
  ∃ a, a ∈ fetched ∧ categoryKey a = name.
Proof.
  rewrite fetchCategories_names. apply (uniqueKeys_spec fetched).
Qed.

Lemma fetchCategories_count fetched c :
  c ∈ fetchCategories fetched →
  statsCount c
  = Z.of_nat (length (filter (λ a, categoryKey a = statsName c) fetched)).
Proof. by intros (name & _ & ->)%elem_of_fetchCategories. Qed.

(** The categories page lists every category key of the fetched articles
    once.  An entry's count is the number of articles with that key and
    is at least one, its list holds exactly those articles, and the
    counts add up to the number of articles fetched. *)
Theorem fetchCategories_counts fetched :
  NoDup (statsName <$> fetchCategories fetched) ∧
  (∀ name, name ∈ statsName <$> fetchCategories fetched ↔
           ∃ a, a ∈ fetched ∧ categoryKey a = name) ∧
  (∀ c, c ∈ fetchCategories fetched →
        0 < statsCount c ∧
        statsCount c
        = Z.of_nat (length (filter (λ a, categoryKey a = statsName c) fetched)) ∧
        statsArticles c
        ≡ₚ (λ a, mkArticleRef (id a) (title a) (createdAt a))
             <$> filter (λ a, categoryKey a = statsName c) fetched) ∧
  totalCount (fetchCategories fetched) = Z.of_nat (length fetched).
Proof.
  destruct (uniqueKeys_spec fetched) as [Hnd Hkeys].
  split; [by rewrite fetchCategories_names|].
  split; [apply fetchCategories_name_iff|].
  split.
  - intros c Hc. split; [|split; [by apply fetchCategories_count|]].
    + apply elem_of_fetchCategories in Hc as (name & Hname & ->).
      cbn [sortArticles categoryEntry statsName statsCount statsArticles].
      apply Hkeys in Hname as (a & Ha & Hkey).
      assert (Hin : a ∈ filter (λ b, categoryKey b = name) fetched)
        by by apply list_elem_of_filter.
      destruct (filter _ fetched); [by apply elem_of_nil in Hin|].
      cbn [length]. lia.
    + apply elem_of_fetchCategories in Hc as (name & Hname & ->).
      cbn [sortArticles categoryEntry statsName statsCount statsArticles].
      apply sort_Permutation.
  - rewrite (totalCount_Permutation _ _ (fetchCategories_Permutation fetched)).
    rewrite totalCount_sortArticles. apply totalCount_entries; [done|].
    intros a Ha. apply Hkeys. eauto.
Qed.

(** The categories come by falling count, and each category lists its
    articles newest first. *)
Theorem fetchCategories_sorted fetched :
  StronglySorted (descending statsCount) (fetchCategories fetched) ∧
  ∀ c, c ∈ fetchCategories fetched →
       StronglySorted (descending refCreatedAt) (statsArticles c).
Proof.
  split; [apply (sort_descending statsCount)|].
  intros c (name & _ & ->)%elem_of_fetchCategories.
  apply (sort_descending refCreatedAt).
Qed.

(** The categories page and the tree view agree on the categories: the
    buckets of the categorized hierarchy are the names the page lists.
    The tree view's header counts only the top-level articles of a
    bucket, so it never shows more than the page's count, and shows
    less as soon as one article of the category has a [parentId] other
    than [null]. *)
Theorem categories_match_forest fuel fetched forest :
  getCategorizedHierarchy fuel fetched = Returns forest →
  (∀ name, is_Some (forest !! name)
           ↔ name ∈ statsName <$> fetchCategories fetched) ∧
  (∀ c roots, c ∈ fetchCategories fetched →
     forest !! statsName c = Some roots →
     Z.of_nat (length roots) ≤ statsCount c ∧
     ((∃ a, a ∈ fetched ∧ categoryKey a = statsName c ∧ parentId a ≠ Null) →
      Z.of_nat (length roots) < statsCount c)).
Proof.
  intros Hf. split.
  - intros name.
    by rewrite (getCategorizedHierarchy_keys _ _ _ _ Hf),
               fetchCategories_name_iff.
  - intros c roots Hin Hroots. rewrite (fetchCategories_count _ _ Hin).
    apply (getCategorizedHierarchy_lookup _ _ _ _ _ Hf) in Hroots.
    set (bucket := filter (λ a, categoryKey a = statsName c) fetched) in *.
    destruct fuel as [|fuel]; [done|]. simpl in Hroots.
    apply fmap_Some in Hroots as (raw & Hraw & ->).
    apply mapM_Some, Forall2_length in Hraw.
    rewrite (Permutation_length (sort_Permutation _ raw)), <- Hraw.
    assert (Hbucket : ∀ a, a ∈ fetched → categoryKey a = statsName c →
                           a ∈ bucket)
      by (intros a Ha Hkey; by apply list_elem_of_filter).
    clearbody bucket.
    split; [apply Nat2Z.inj_le, length_filter|].
    intros (a & Ha & Hkey & Hparent). apply Nat2Z.inj_lt.
    pose proof (Hbucket a Ha Hkey) as Hb. clear -Hb Hparent.
    induction bucket as [|b bucket IH]; [by apply elem_of_nil in Hb|].
    apply elem_of_cons in Hb as [<-|Hb].
    + rewrite filter_cons_False by done.
      cbn [length]. apply Nat.lt_succ_r, length_filter.
    + specialize (IH Hb). destruct (decide (parentId b = Null)).
      * rewrite filter_cons_True by done. cbn [length].
        by apply ->Nat.succ_lt_mono.
      * rewrite filter_cons_False by done. cbn [length].
        by apply Nat.lt_lt_succ_r.
Qed.

Lemma categories_match_forest_witness :
  ∃ forest, getCategorizedHierarchy 3 scenarioC = Returns forest ∧
    ∀ name, is_Some (forest !! name)
            ↔ name ∈ statsName <$> fetchCategories scenarioC.
Proof.
  eexists. split; [vm_compute; reflexivity|].
  apply (categories_match_forest 3 scenarioC). vm_compute. reflexivity.
Defined.

(** ** The categorized forest: further results *)

Lemma groupByCategory_None l :
  groupByCategory l = None ↔
  ∃ a, a ∈ l ∧ categoryKey a ∈ objectPrototypeKeys.
Proof.
  split.
  - intros Hnone.
    destruct (decide (Exists (λ a, categoryKey a ∈ objectPrototypeKeys) l))
      as [Hex|Hex]; [by apply Exists_exists in Hex|].
    destruct (groupByCategory_is_Some l) as [g Hg]; [|congruence].
    intros a Ha Hkey. apply Hex, Exists_exists. eauto.
  - induction l as [|a l IH] using rev_ind.
    + by intros (a & Ha%elem_of_nil & _).
    + intros (b & Hb & Hkey). rewrite groupByCategory_snoc.
      destruct (groupByCategory l) as [g|] eqn:Hg; [|done].
      assert (Hclean : ∀ b, b ∈ l → categoryKey b ∉ objectPrototypeKeys).
      { intros b' Hb' Hkey'. by specialize (IH (ex_intro _ b' (conj Hb' Hkey'))). }
      apply elem_of_app in Hb as [Hb|Hb%list_elem_of_singleton];
        [by destruct (Hclean b Hb)|]. subst b.
      simpl. rewrite (groupByCategory_lookup _ _ Hg).
      destruct (bucketOf (categoryKey a) l) as [bucket|] eqn:Hbucket.
      * pose proof Hbucket as ->%bucketOf_Some. unfold bucketOf in Hbucket.
        destruct (filter _ l) as [|b bucket] eqn:Hf; [done|].
        assert (Hb : b ∈ filter (λ x, categoryKey x = categoryKey a) l)
          by (rewrite Hf; left).
        apply list_elem_of_filter in Hb as [Heq Hb].
        destruct (Hclean b Hb). by rewrite Heq.
      * by rewrite decide_True.
Qed.

(** Loading the categorized hierarchy fails with a [TypeError] exactly
    when some article's category key is the name of a member every
    object inherits ("constructor", "toString", "__proto__", ...). *)
Theorem getCategorizedHierarchy_throws fuel fetched :
  getCategorizedHierarchy fuel fetched = Throws TypeError ↔
  ∃ a, a ∈ fetched ∧ categoryKey a ∈ objectPrototypeKeys.
Proof.
  rewrite <- groupByCategory_None. unfold getCategorizedHierarchy.
  destruct (groupByCategory fetched) as [g|]; [|done].
  by case_decide.
Qed.

Lemma getCategorizedHierarchy_grow fuel fetched forest c roots :
  getCategorizedHierarchy fuel fetched = Returns forest →
  forest !! c = Some roots →
  grow placedUnder (sort newestFirst)
       (filter (λ a, categoryKey a = c) fetched) fuel Null = Some roots.
Proof.
  intros Hf Hc. rewrite <- buildHierarchy_grow.
  by apply (getCategorizedHierarchy_lookup _ _ _ _ _ Hf).
Qed.

Lemma forest_member_rooted fuel fetched forest c roots a :
  getCategorizedHierarchy fuel fetched = Returns forest →
  forest !! c = Some roots →
  a ∈ articlesOf roots →
  a ∈ fetched ∧ categoryKey a = c ∧
  ∃ n, rooted placedUnder (filter (λ b, categoryKey b = c) fetched) n a.
Proof.
  intros Hf Hc Ha.
  pose proof (getCategorizedHierarchy_grow _ _ _ _ _ Hf Hc) as Hg.
  destruct (grow_rooted _ _ _ (sort_Permutation newestFirst) _ _ _ Hg Ha)
    as [n Hn].
  apply list_elem_of_fmap in Ha as (m & -> & Hm).
  rewrite <- buildHierarchy_grow in Hg.
  apply (buildHierarchy_nodes _ _ _ _ _ Hg), list_elem_of_filter in Hm.
  naive_solver.
Qed.

(** The tree of a category holds exactly the articles of that category
    whose chain of [parentId]s, followed within the category, ends at an
    article whose [parentId] is [null]; with pairwise distinct ids it
    holds none of them twice. *)
Theorem categorized_forest_members fuel fetched forest c roots :
  getCategorizedHierarchy fuel fetched = Returns forest →
  forest !! c = Some roots →
  (∀ a, a ∈ articlesOf roots ↔
        a ∈ fetched ∧ categoryKey a = c ∧
        ∃ n, rooted placedUnder (filter (λ b, categoryKey b = c) fetched) n a)
  ∧ (NoDup (id <$> fetched) → NoDup (articlesOf roots)).
Proof.
  intros Hf Hc. pose proof (getCategorizedHierarchy_grow _ _ _ _ _ Hf Hc) as Hg.
  split.
  - intros a. split.
    + by apply (forest_member_rooted _ _ _ _ _ _ Hf Hc).
    + intros (Ha & Hkey & n & Hn).
      apply (grow_member _ _ _ (sort_Permutation newestFirst) _ _ n _ Hg);
        [|done].
      by apply list_elem_of_filter.
  - intros Hids.
    apply (grow_NoDup placedUnder (sort newestFirst)
             (filter (λ a, categoryKey a = c) fetched)
             (sort_Permutation newestFirst)) with fuel; [| |done].
    + unfold placedUnder. by intros k k' a -> ->.
    + by apply NoDup_ids_filter.
Qed.

Lemma categorized_forest_members_witness :
  ∃ forest roots,
    getCategorizedHierarchy 3 scenarioA = Returns forest ∧
    forest !! "News" = Some roots ∧
    sampleArticle "2" (Val "News") (Val "1") 0 ∈ articlesOf roots ∧
    NoDup (articlesOf roots).
Proof.
  assert (Hall : ∀ forest roots,
    getCategorizedHierarchy 3 scenarioA = Returns forest →
    forest !! "News" = Some roots →
    sampleArticle "2" (Val "News") (Val "1") 0 ∈ articlesOf roots ∧
    NoDup (articlesOf roots)).
  { intros forest roots Hf Hr.
    destruct (categorized_forest_members 3 scenarioA forest "News" roots Hf Hr)
      as [Hmem Hnd].
    split.
    - apply Hmem. split; [right; left|]. split; [reflexivity|].
      exists 1%nat. right. exists (sampleArticle "1" (Val "News") Null 0).
      split; [left|]. split; [reflexivity|]. by left.
    - apply Hnd. simpl. apply NoDup_cons. split; [|apply NoDup_singleton].
      by intros ?%list_elem_of_singleton. }
  eexists _, _. split; [vm_compute; reflexivity|].
  split; [vm_compute; reflexivity|].
  eapply Hall; vm_compute; reflexivity.
Defined.

(** An article whose [parentId] is [undefined], or names no article of
    its own category, is in no tree of the categorized hierarchy: the
    tree view does not show it at all. *)
Theorem orphan_absent_from_forest fuel fetched forest c roots a :
  getCategorizedHierarchy fuel fetched = Returns forest →
  forest !! c = Some roots →
  parentId a = Undefined ∨
  (∃ X, parentId a = Val X ∧
        ∀ b, b ∈ fetched → categoryKey b = categoryKey a → id b ≠ X) →
  a ∉ articlesOf roots.
Proof.
  intros Hf Hc Horphan Ha.
  apply (forest_member_rooted _ _ _ _ _ _ Hf Hc) in Ha
    as (_ & Hkey & n & Hn).
  unfold placedUnder in Hn.
  destruct n as [|n]; simpl in Hn;
    destruct Hn as [Hnull|Hn], Horphan as [Hundef|(X & HX & Hmissing)];
    try congruence; try done.
  all: destruct Hn as (b & Hb & Hparent & _).
  - congruence.
  - apply list_elem_of_filter in Hb as [Hbkey Hb].
    apply (Hmissing b Hb); congruence.
Qed.

Lemma orphan_absent_from_forest_witness :
  ∃ forest roots,
    getCategorizedHierarchy 3 scenarioB = Returns forest ∧
    forest !! "Uncategorized" = Some roots ∧
    sampleArticle "1" Null (Val "missing") 0 ∉ articlesOf roots.
Proof.
  eexists _, _. split; [vm_compute; reflexivity|].
  split; [vm_compute; reflexivity|].
  eapply (orphan_absent_from_forest 3 scenarioB _ "Uncategorized").
  - vm_compute. reflexivity.
  - vm_compute. reflexivity.
  - right. exists "missing". split; [reflexivity|].
    intros b ->%list_elem_of_singleton _. discriminate.
Defined.

(** ** Siblings at every depth *)

Section GrowSiblings.
Context (placed : nullable string → Article → Prop)
        `{∀ k a, Decision (placed k a)}.
Context (arrange : list Node → list Node).
Context (universe : list Article).
Hypothesis arrange_Permutation : ∀ l, arrange l ≡ₚ l.

Lemma grow_raw fuel k raw :
  Forall2 (λ a n, ∃ cs, grow placed arrange universe fuel (Val (id a)) = Some cs
                        ∧ n = mkNode a cs)
          (kids placed universe k) raw →
  node_article <$> raw = kids placed universe k.
Proof.
  induction 1 as [|a n X raw' (cs & _ & ->) _ IH]; [done|].
  rewrite fmap_cons, IH. done.
Qed.

(** The nodes grown under a key carry exactly the articles placed under
    that key. *)
Lemma grow_siblings fuel k forest :
  grow placed arrange universe fuel k = Some forest →
  node_article <$> forest ≡ₚ kids placed universe k.
Proof.
  destruct fuel as [|fuel]; [done|].
  intros (raw & -> & Hraw)%grow_S.
  by rewrite arrange_Permutation, (grow_raw _ _ _ Hraw).
Qed.

(** The children of every node of a grown forest were grown under that
    node's id. *)
Lemma grow_subtree fuel k forest n :
  grow placed arrange universe fuel k = Some forest →
  n ∈ flat_map nodes forest →
  ∃ fuel', grow placed arrange universe fuel' (Val (id (node_article n)))
           = Some (node_children n).
Proof.
  revert k forest n. induction fuel as [|fuel IH]; intros k forest n Hg Hn;
    [done|].
  apply grow_S in Hg as (raw & -> & Hraw).
  apply elem_of_flat_map in Hn as (r & Hr & Hn).
  rewrite arrange_Permutation in Hr.
  apply list_elem_of_lookup in Hr as [i Hi].
  destruct (Forall2_lookup_r _ _ _ _ _ Hraw Hi) as (a & _ & cs & Hcs & ->).
  simpl in Hn. apply elem_of_cons in Hn as [->|Hn]; [by exists fuel|].
  by apply (IH _ _ _ Hcs).
Qed.
End GrowSiblings.

(** In the tree of a category the top-level nodes are exactly the
    articles of the category whose [parentId] is [null], and the
    children of a node, at any depth, are exactly the articles of the
    category whose [parentId] is that node's id. *)
Theorem forest_children_exact fuel fetched forest c roots :
  getCategorizedHierarchy fuel fetched = Returns forest →
  forest !! c = Some roots →
  node_article <$> roots
  ≡ₚ filter (λ a, parentId a = Null ∧ categoryKey a = c) fetched ∧
  ∀ n, n ∈ flat_map nodes roots →
       node_article <$> node_children n
       ≡ₚ filter (λ a, parentId a = Val (id (node_article n))
                       ∧ categoryKey a = c) fetched.
Proof.
  intros Hf Hc. pose proof (getCategorizedHierarchy_grow _ _ _ _ _ Hf Hc) as Hg.
  rewrite <- !list_filter_filter. split.
  - apply (grow_siblings _ _ _ (sort_Permutation newestFirst) _ _ _ Hg).
  - intros n Hn.
    destruct (grow_subtree _ _ _ (sort_Permutation newestFirst) _ _ _ _ Hg Hn)
      as [fuel' Hcs].
    setoid_rewrite <- list_filter_filter.
    apply (grow_siblings _ _ _ (sort_Permutation newestFirst) _ _ _ Hcs).
Qed.

Lemma forest_children_exact_witness :
  ∃ forest roots,
    getCategorizedHierarchy 3 scenarioA = Returns forest ∧
    forest !! "News" = Some roots ∧
    node_article <$> roots
    ≡ₚ filter (λ a, parentId a = Null ∧ categoryKey a = "News") scenarioA.
Proof.
  eexists _, _. split; [vm_compute; reflexivity|].
  split; [vm_compute; reflexivity|].
  eapply (forest_children_exact 3 scenarioA _ "News"); vm_compute; reflexivity.
Defined.

(** ** Termination of the categorized hierarchy *)

Lemma getCategorizedHierarchy_total_witness :
  ∃ forest, getCategorizedHierarchy 3 scenarioC = Returns forest.
Proof.
  apply (getCategorizedHierarchy_total 3 scenarioC).
  - simpl. apply NoDup_cons. split; [|apply NoDup_singleton].
    by intros ?%list_elem_of_singleton.
  - intros a Ha. vm_compute in Ha.
    apply elem_of_cons in Ha as [->|Ha%list_elem_of_singleton];
      [|subst a]; vm_compute; set_solver.
  - simpl. lia.
Defined.

(** The recursion under an article that names itself as parent never
    comes back. *)
Lemma buildHierarchy_self_parent fuel l a :
  a ∈ l → parentId a = Val (id a) →
  buildHierarchy fuel l (Val (id a)) = None.
Proof.
  intros Ha Hself. induction fuel as [|fuel IH]; [done|]. simpl.
  rewrite (mapM_None_2 _ (filter (λ b, parentId b = Val (id a)) l)); [done|].
  apply Exists_exists. exists a. split; [by apply list_elem_of_filter|].
  by rewrite IH.
Qed.

(** Distinct ids are needed for the hierarchy to be returned: when an
    article names itself as parent and shares its id and category with a
    top-level article, the recursion never ends, whatever the depth
    allowed. *)
Theorem duplicate_id_loop_never_returns fuel fetched a b :
  a ∈ fetched → b ∈ fetched →
  categoryKey a = categoryKey b → id a = id b →
  parentId a = Val (id a) → parentId b = Null →
  ∀ forest, getCategorizedHierarchy fuel fetched ≠ Returns forest.
Proof.
  intros Ha Hb Hkey Hid Hself Hroot forest Hf.
  destruct (proj2 (getCategorizedHierarchy_keys _ _ _ (categoryKey b) Hf))
    as [roots Hroots]; [by eauto|].
  pose proof (getCategorizedHierarchy_lookup _ _ _ _ _ Hf Hroots) as Hbuild.
  set (bucket := filter (λ x, categoryKey x = categoryKey b) fetched) in *.
  assert (Hain : a ∈ bucket) by by apply list_elem_of_filter.
  assert (Hbin : b ∈ bucket) by by apply list_elem_of_filter.
  destruct fuel as [|fuel]; [done|]. simpl in Hbuild.
  apply fmap_Some in Hbuild as (raw & Hraw & _).
  assert (Hsome : is_Some (mapM (λ x, mkNode x <$>
                    buildHierarchy fuel bucket (Val (id x)))
                    (filter (λ x, parentId x = Null) bucket)))
    by by eexists.
  apply mapM_is_Some_1 in Hsome. rewrite list.Forall_forall in Hsome.
  destruct (Hsome b) as [n Hn]; [by apply list_elem_of_filter|].
  simpl in Hn. rewrite <- Hid in Hn.
  by rewrite (buildHierarchy_self_parent _ _ _ Hain Hself) in Hn.
Qed.

Lemma duplicate_id_loop_never_returns_witness :
  getCategorizedHierarchy 100
    [ sampleArticle "1" (Val "News") Null 0;
      sampleArticle "1" (Val "News") (Val "1") 0 ] = OutOfFuel.
Proof.
  pose proof (duplicate_id_loop_never_returns 100
    [ sampleArticle "1" (Val "News") Null 0;
      sampleArticle "1" (Val "News") (Val "1") 0 ]
    (sampleArticle "1" (Val "News") (Val "1") 0)
    (sampleArticle "1" (Val "News") Null 0)) as Hnever.
  destruct (getCategorizedHierarchy 100 _) as [forest|e|] eqn:Hf;
    [| |reflexivity].
  - destruct (Hnever ltac:(right; left) ltac:(left) eq_refl eq_refl eq_refl
                eq_refl forest eq_refl).
  - exfalso. apply (f_equal (λ o, match o with Throws _ => true | _ => false end))
      in Hf. vm_compute in Hf. discriminate.
Defined.

(** ** The root tree: order and membership of every sibling sequence *)

Lemma levels_nodes level forest :
  level ∈ flat_map levels forest →
  ∃ n, n ∈ flat_map nodes forest ∧ level = node_children n.
Proof.
  intros (r & Hr & Hlevel)%elem_of_flat_map.
  cut (∃ n, n ∈ nodes r ∧ level = node_children n).
  { intros (n & Hn & ->). exists n. split; [|done].
    apply elem_of_flat_map. eauto. }
  clear Hr. induction r as [a cs IH] using Node_forall_ind.
  simpl in Hlevel. apply elem_of_cons in Hlevel as [->|Hlevel].
  - exists (mkNode a cs). split; [apply nodes_self|done].
  - apply elem_of_flat_map in Hlevel as (c & Hc & Hlevel).
    rewrite list.Forall_forall in IH.
    destruct (IH c Hc Hlevel) as (n & Hn & ->).
    exists n. split; [|done]. simpl. right.
    apply elem_of_flat_map. eauto.
Qed.

Lemma validParent_None m a :
  validParent m a = None ↔
  truthy (parentId a) = false ∨ ∃ p, parentId a = Val p ∧ m !! p = None.
Proof.
  unfold validParent, truthy. destruct (parentId a) as [| |q]; [naive_solver..|].
  destruct (decide (q = "")) as [->|Hq]; simpl; [naive_solver|].
  destruct (m !! q) as [n|] eqn:Hm.
  - rewrite bool_decide_eq_true_2 by by eexists. naive_solver.
  - rewrite bool_decide_eq_false_2 by by intros [? ?]. naive_solver.
Qed.

(** The root tree is never sorted: with pairwise distinct ids, every
    sibling sequence, the top level included, lists its articles in the
    order in which they were fetched.  The top level holds exactly the
    articles whose [parentId] is absent, [null], empty or the id of no
    fetched article; the children of a node are exactly the articles
    whose [parentId] is that node's id. *)
Theorem root_tree_in_input_order fetched :
  NoDup (id <$> fetched) →
  ∃ b forest,
    fetchArticles fetched = Some b ∧
    readTree (S (length fetched)) (articleMap b) (rootArticles b)
      = Some forest ∧
    (∀ level, level ∈ forest :: flat_map levels forest →
              sublist (node_article <$> level) fetched) ∧
    (∀ a, a ∈ node_article <$> forest ↔
          a ∈ fetched ∧
          (truthy (parentId a) = false ∨
           ∃ p, parentId a = Val p ∧ p ∉ id <$> fetched)) ∧
    (∀ n a, n ∈ flat_map nodes forest →
            a ∈ node_article <$> node_children n ↔
            a ∈ fetched ∧ parentId a = Val (id (node_article n))
            ∧ id (node_article n) ≠ "").
Proof.
  intros Hids.
  destruct (fetchArticles_closed_form fetched) as (b & Hb & Hroots & Hmap).
  destruct (grow_total (placedBy fetched) (λ forest, forest) fetched
              (placedBy_unique fetched) Hids (S (length fetched)))
    as [forest Hforest]; [lia|].
  exists b, forest. split; [done|]. split.
  { rewrite Hroots. by rewrite (readTree_grow fetched b _ Null Hids Hmap). }
  assert (Hkids : ∀ fuel k cs,
    grow (placedBy fetched) (λ forest, forest) fetched fuel k = Some cs →
    node_article <$> cs = filter (placedBy fetched k) fetched).
  { intros [|fuel] k cs Hcs; [done|].
    apply grow_S in Hcs as (raw & -> & Hraw).
    apply (grow_raw _ _ _ _ _ _ Hraw). }
  assert (Hchildren : ∀ n, n ∈ flat_map nodes forest →
    node_article n ∈ fetched ∧
    node_article <$> node_children n
    = filter (placedBy fetched (Val (id (node_article n)))) fetched).
  { intros n Hn. split.
    - destruct (grow_NoDup (placedBy fetched) (λ forest, forest) fetched
                  (λ l, reflexivity l) (placedBy_unique fetched) Hids _ _
                  Hforest) as [_ Hsub].
      apply Hsub. by apply list_elem_of_fmap_2.
    - destruct (grow_subtree (placedBy fetched) (λ forest, forest) fetched
                  (λ l, reflexivity l) _ _ _ _ Hforest Hn) as [fuel' Hcs].
      by apply (Hkids fuel'). }
  split; [|split].
  - intros level [->|Hlevel]%elem_of_cons.
    + rewrite (Hkids _ _ _ Hforest). apply sublist_filter.
    + apply levels_nodes in Hlevel as (n & Hn & ->).
      destruct (Hchildren n Hn) as [_ ->]. apply sublist_filter.
  - intros a. rewrite (Hkids _ _ _ Hforest), list_elem_of_filter. simpl.
    rewrite validParent_None.
    assert (Hnone : ∀ p, firstPass fetched !! p = None ↔ p ∉ id <$> fetched)
      by (intros p; by rewrite eq_None_not_Some, firstPass_is_Some).
    setoid_rewrite Hnone. naive_solver.
  - intros n a Hn. destruct (Hchildren n Hn) as [Hin ->].
    rewrite list_elem_of_filter. simpl. rewrite validParent_Some.
    assert (is_Some (firstPass fetched !! id (node_article n)))
      by by apply firstPass_is_Some, list_elem_of_fmap_2.
    naive_solver.
Qed.

Lemma root_tree_in_input_order_witness :
  ∃ b forest,
    fetchArticles scenarioA = Some b ∧
    readTree 3 (articleMap b) (rootArticles b) = Some forest ∧
    sublist (node_article <$> forest) scenarioA.
Proof.
  destruct (root_tree_in_input_order scenarioA scenarioA_distinct_ids)
    as (b & forest & Hb & Hread & Hlevels & _).
  exists b, forest. split; [exact Hb|]. split; [exact Hread|].
  apply Hlevels. left.
Defined.

(** ** Slices with indices that are not negative *)

Lemma slice_nonneg {A} (start finish : Z) (l : list A) :
  0 ≤ start → start ≤ finish →
  slice start finish l
  = take (Z.to_nat finish - Z.to_nat start) (drop (Z.to_nat start) l).
Proof.
  intros Hs He. unfold slice, relativeIndex.
  rewrite (proj2 (Z.ltb_ge start 0)), (proj2 (Z.ltb_ge finish 0)) by lia.
  set (len := Z.of_nat (length l)).
  assert (Hlen : length l = Z.to_nat len) by (unfold len; lia).
  destruct (decide (finish ≤ len)) as [Hin|Hout].
  - rewrite !Z.min_l by lia. f_equal. lia.
  - destruct (decide (start ≤ len)) as [Hsin|Hsout].
    + rewrite (Z.min_l start), (Z.min_r finish) by lia.
      rewrite !take_ge; [done|rewrite length_drop; lia..].
    + rewrite !Z.min_r by lia. rewrite !drop_ge by lia. by rewrite !take_nil.
Qed.

Lemma slice_take {A} (n : nat) (l : list A) :
  slice 0 (Z.of_nat n) l = take n l.
Proof.
  rewrite slice_nonneg by lia. simpl. rewrite Nat2Z.id. f_equal. lia.
Qed.

(** ** Related articles *)

(** The sidebar lists at most five articles, in the order of the fetched
    list, none with the id of the article shown; each has the category
    of the article shown, unless that article has no category, in which
    case any other article qualifies.  When at most five articles
    qualify, all of them are listed. *)
Theorem fetchRelatedArticles_spec currentArticle allArticles :
  let related := fetchRelatedArticles currentArticle allArticles in
  let qualifies a :=
    id a ≠ id currentArticle ∧
    (category a = category currentArticle
     ∨ truthy (category currentArticle) = false) in
  (length related ≤ 5)%nat ∧
  sublist related allArticles ∧
  (∀ a, a ∈ related → a ∈ allArticles ∧ qualifies a) ∧
  ((length (filter qualifies allArticles) ≤ 5)%nat →
   related = filter qualifies allArticles).
Proof.
  intros related qualifies. subst related. unfold fetchRelatedArticles.
  change 5 with (Z.of_nat 5). rewrite slice_take, list_filter_filter.
  set (matching := filter _ allArticles).
  assert (Hmatching : matching = filter qualifies allArticles).
  { apply list_filter_iff. unfold qualifies. naive_solver. }
  rewrite Hmatching. split; [rewrite length_take; lia|].
  split; [etrans; [apply sublist_take|apply sublist_filter]|].
  split.
  - intros a Ha.
    assert (Hin : a ∈ filter qualifies allArticles)
      by (rewrite <- (take_drop 5); apply elem_of_app; by left).
    by apply list_elem_of_filter in Hin as [? ?].
  - intros Hfew. by apply take_ge.
Qed.

(** ** Pages of the table *)

Lemma flat_map_over_fmap {A B C} (f : B → list C) (g : A → B) (l : list A) :
  flat_map f (g <$> l) = flat_map (λ x, f (g x)) l.
Proof. induction l as [|x l IH]; simpl; [done|]. f_equal. exact IH. Qed.

Lemma chunks_concat {A} (k n : nat) (l : list A) :
  (length l ≤ n * k)%nat →
  flat_map (λ p, take k (drop ((p - 1) * k) l)) (seq 1 n) = l.
Proof.
  revert l. induction n as [|n IH]; intros l Hlen.
  - simpl in *. destruct l; [done|simpl in Hlen; lia].
  - cbn [seq flat_map]. rewrite <- fmap_S_seq.
    change (take k (drop ((1 - 1) * k) l)) with (take k l).
    transitivity (take k l ++ drop k l); [|apply take_drop]. f_equal.
    etrans; [|apply (IH (drop k l)); rewrite length_drop; lia].
    rewrite flat_map_over_fmap. apply flat_map_Forall_ext, list.Forall_forall.
    intros p Hp%elem_of_seq. rewrite drop_drop. do 2 f_equal.
    destruct p as [|p]; [lia|]. simpl. rewrite !Nat.sub_0_r. lia.
Qed.

Lemma filter_all {A} (P : A → Prop) `{∀ x, Decision (P x)} (l : list A) :
  (∀ x, x ∈ l → P x) → filter P l = l.
Proof.
  induction l as [|x l IH]; intros Hall; [done|].
  rewrite filter_cons_True by (apply Hall; left).
  f_equal. apply IH. intros y Hy. apply Hall. by right.
Qed.

Section Pages.
Context (toLowerCase : string → string).

Lemma paginatedArticles_chunk st :
  0 < itemsPerPage st → 1 ≤ currentPage st →
  paginatedArticles toLowerCase st
  = take (Z.to_nat (itemsPerPage st))
         (drop ((Z.to_nat (currentPage st) - 1) * Z.to_nat (itemsPerPage st))
               (filteredArticles toLowerCase st)).
Proof.
  intros Hsize Hpage. unfold paginatedArticles.
  rewrite slice_nonneg by nia. f_equal; [nia|]. f_equal. nia.
Qed.

(** With a positive page size the pages 1 to [totalPages], one after the
    other, are the filtered list: every matching article is on exactly
    one page, in order.  Every page but the last is full, and the last
    is not empty. *)
Theorem pages_partition st :
  0 < itemsPerPage st →
  flat_map (λ p, paginatedArticles toLowerCase (setCurrentPage st (Z.of_nat p)))
           (seq 1 (Z.to_nat (totalPages toLowerCase st)))
  = filteredArticles toLowerCase st ∧
  ∀ p, 1 ≤ p ≤ totalPages toLowerCase st →
       let page := paginatedArticles toLowerCase (setCurrentPage st p) in
       0 < Z.of_nat (length page) ≤ itemsPerPage st ∧
       (p < totalPages toLowerCase st →
        Z.of_nat (length page) = itemsPerPage st).
Proof.
  intros Hsize.
  pose proof (Qceiling_quotient
                (Z.of_nat (length (filteredArticles toLowerCase st)))
                (itemsPerPage st) Hsize) as [Hlow Hhigh].
  fold (totalPages toLowerCase st) in Hlow, Hhigh.
  set (T := totalPages toLowerCase st) in *.
  set (l := filteredArticles toLowerCase st) in *.
  split.
  - etrans; [|apply (chunks_concat (Z.to_nat (itemsPerPage st)) (Z.to_nat T) l);
                nia].
    apply flat_map_Forall_ext, list.Forall_forall. intros p Hp%elem_of_seq.
    rewrite paginatedArticles_chunk by (simpl; lia).
    simpl. by rewrite Nat2Z.id.
  - intros p Hp page. subst page.
    rewrite paginatedArticles_chunk by (simpl; lia). simpl.
    change (filteredArticles toLowerCase (setCurrentPage st p)) with l.
    rewrite length_take, length_drop. nia.
Qed.

Lemma pressButton_page st b st' :
  pressButton toLowerCase st b = Some st' →
  ∃ page, st' = setCurrentPage st page.
Proof.
  unfold pressButton. destruct (negb _); [done|].
  destruct b; case_decide; intros [= <-]; eauto.
Qed.

(** A paging button never changes what is filtered or the number of
    pages.  Pressed on a page that exists, it moves to a different page
    that exists as well. *)
Theorem paging_buttons_keep_range st b st' :
  pressButton toLowerCase st b = Some st' →
  filteredArticles toLowerCase st' = filteredArticles toLowerCase st ∧
  totalPages toLowerCase st' = totalPages toLowerCase st ∧
  (pageInRange toLowerCase st →
   pageInRange toLowerCase st' ∧ currentPage st' ≠ currentPage st).
Proof.
  intros Hpress.
  destruct (pressButton_page _ _ _ Hpress) as [page ->].
  do 2 (split; [done|]). unfold pageInRange.
  change (totalPages toLowerCase (setCurrentPage st page))
    with (totalPages toLowerCase st).
  unfold pressButton in Hpress.
  destruct (1 <? totalPages toLowerCase st) eqn:Hbar; [|done].
  apply Z.ltb_lt in Hbar. simpl in Hpress.
  destruct b; case_decide; try done; injection Hpress as Hpage;
    simpl in *; lia.
Qed.

(** From a page that exists, Next followed by Previous leads back to the
    same state. *)
Theorem next_then_previous st st' :
  pageInRange toLowerCase st →
  pressButton toLowerCase st NextPage = Some st' →
  pressButton toLowerCase st' PreviousPage = Some st.
Proof.
  intros [Hlow Hhigh] Hpress. unfold pressButton in *.
  destruct (1 <? totalPages toLowerCase st) eqn:Hbar; [|done].
  simpl in Hpress. case_decide as Hlast; [done|]. injection Hpress as <-.
  change (totalPages toLowerCase (setCurrentPage st _))
    with (totalPages toLowerCase st).
  rewrite Hbar. simpl. rewrite decide_False by lia.
  f_equal. destruct st as [rows q c s page size]. unfold setCurrentPage.
  simpl in *. f_equal. lia.
Qed.

(** A lower-casing that leaves the empty string empty makes the empty
    search match every article: the table starts with all root articles,
    ten to a page. *)
Theorem initial_view_shows_everything roots :
  toLowerCase "" = "" →
  filteredArticles toLowerCase (initialState roots) = roots ∧
  paginatedArticles toLowerCase (initialState roots) = take 10 roots.
Proof.
  intros Hempty.
  assert (Hall : filteredArticles toLowerCase (initialState roots) = roots).
  { unfold filteredArticles. apply filter_all. intros n _.
    unfold matchesFilters. simpl. rewrite Hempty.
    by destruct (toLowerCase (title (node_article n))). }
  split; [done|].
  rewrite paginatedArticles_chunk by (simpl; lia). rewrite Hall. done.
Qed.
End Pages.

Lemma pages_partition_witness :
  paginatedArticles asciiLowerCase (setCurrentPage secondPage 1)
  ++ paginatedArticles asciiLowerCase (setCurrentPage secondPage 2)
  = filteredArticles asciiLowerCase secondPage.
Proof.
  destruct (pages_partition asciiLowerCase secondPage) as [Hall _].
  - simpl. lia.
  - rewrite <- Hall. vm_compute. reflexivity.
Defined.

Lemma paging_buttons_keep_range_witness :
  pressButton asciiLowerCase secondPage PreviousPage
  = Some (setCurrentPage secondPage 1) ∧
  pageInRange asciiLowerCase (setCurrentPage secondPage 1).
Proof.
  split; [vm_compute; reflexivity|].
  apply (paging_buttons_keep_range asciiLowerCase secondPage PreviousPage).
  - vm_compute. reflexivity.
  - vm_compute. split; discriminate.
Defined.

Lemma next_then_previous_witness :
  pressButton asciiLowerCase (setCurrentPage secondPage 2) PreviousPage
  = Some (setCurrentPage secondPage 1).
Proof.
  apply (next_then_previous asciiLowerCase (setCurrentPage secondPage 1)).
  - vm_compute. split; discriminate.
  - vm_compute. reflexivity.
Defined.

Lemma initial_view_shows_everything_witness :
  filteredArticles asciiLowerCase (initialState elevenDrafts) = elevenDrafts ∧
  paginatedArticles asciiLowerCase (initialState elevenDrafts)
  = take 10 elevenDrafts.
Proof. apply (initial_view_shows_everything asciiLowerCase). reflexivity. Defined.


(** ** A status change seen by the tree view *)

Lemma filter_fmap_pre {A B} (P : B → Prop) `{∀ y, Decision (P y)}
    (g : A → B) (l : list A) :
  filter P (g <$> l) = g <$> filter (λ x, P (g x)) l.
Proof.
  induction l as [|x l IH]; [done|]. rewrite fmap_cons.
  destruct (decide (P (g x))).
  - rewrite !filter_cons_True by done. by rewrite fmap_cons, IH.
  - by rewrite !filter_cons_False.
Qed.

Lemma mapM_fmap_post {A B C} (h : B → C) (f : A → option B) (l : list A) :
  mapM (λ x, h <$> f x) l = fmap h <$> mapM f l.
Proof.
  induction l as [|x l IH]; [done|]. simpl. rewrite IH.
  destruct (f x); [|done]. simpl. by destruct (mapM f l).
Qed.

Lemma sort_insert_fmap {A B} (cmpA : A → A → Z) (cmpB : B → B → Z)
    (h : A → B) x l :
  (∀ x y, cmpB (h x) (h y) = cmpA x y) →
  sort_insert cmpB (h x) (h <$> l) = h <$> sort_insert cmpA x l.
Proof.
  intros Hcmp. induction l as [|y l IH]; [done|].
  rewrite fmap_cons. simpl. rewrite Hcmp.
  destruct (0 <? cmpA x y); [|done]. rewrite fmap_cons. f_equal. exact IH.
Qed.

Lemma sort_fmap {A B} (cmpA : A → A → Z) (cmpB : B → B → Z) (h : A → B) l :
  (∀ x y, cmpB (h x) (h y) = cmpA x y) →
  sort cmpB (h <$> l) = h <$> sort cmpA l.
Proof.
  intros Hcmp. induction l as [|x l IH]; [done|].
  rewrite fmap_cons. simpl.
  change (foldr (sort_insert cmpB) [] (h <$> l)) with (sort cmpB (h <$> l)).
  rewrite IH. by apply sort_insert_fmap.
Qed.

Lemma buildHierarchy_fmap f fuel l p :
  (∀ a, sameContent a (f a)) →
  buildHierarchy fuel (f <$> l) p = mapForest f <$> buildHierarchy fuel l p.
Proof.
  intros Hsame. revert p. induction fuel as [|fuel IH]; intros p; [done|].
  simpl. rewrite filter_fmap_pre.
  rewrite (list_filter_iff (λ x, parentId (f x) = p) (λ x, parentId x = p))
    by (intros a; by rewrite (proj1 (proj2 (proj2 (proj2 (proj2 (proj2 (Hsame a)))))))).
  rewrite (mapM_fmap_ext f _
             (λ a, mapNode f <$> (mkNode a <$> buildHierarchy fuel l (Val (id a))))).
  - rewrite mapM_fmap_post, <- !option_fmap_compose.
    apply option_fmap_ext. intros raw. simpl.
    apply (sort_fmap newestFirst newestFirst (mapNode f)).
    intros [a cs] [b ds]. unfold newestFirst. simpl.
    destruct (Hsame a) as (_ & _ & _ & _ & _ & _ & -> & _).
    by destruct (Hsame b) as (_ & _ & _ & _ & _ & _ & -> & _).
  - intros a _. destruct (Hsame a) as (-> & _). rewrite IH.
    by destruct (buildHierarchy fuel l (Val (id a))).
Qed.

Lemma sameContent_categoryKey a b : sameContent a b → categoryKey b = categoryKey a.
Proof. intros (_ & _ & _ & _ & Hc & _). unfold categoryKey. by rewrite Hc. Qed.

Lemma groupByCategory_fmap f l :
  (∀ a, sameContent a (f a)) →
  groupByCategory (f <$> l)
  = fmap (M:=gmap string) (fmap (M:=list) f) <$> groupByCategory l.
Proof.
  intros Hsame. induction l as [|a l IH] using rev_ind.
  - unfold groupByCategory. simpl. by rewrite fmap_empty.
  - rewrite fmap_app. simpl. rewrite !groupByCategory_snoc, IH.
    destruct (groupByCategory l) as [g|]; [|done]. simpl.
    rewrite (sameContent_categoryKey _ _ (Hsame a)), lookup_fmap.
    destruct (g !! categoryKey a) as [bucket|]; simpl.
    + by rewrite fmap_insert, fmap_app.
    + case_decide; [done|]. simpl. by rewrite fmap_insert.
Qed.

Lemma getCategorizedHierarchy_fmap f fuel l forest :
  (∀ a, sameContent a (f a)) →
  getCategorizedHierarchy fuel l = Returns forest →
  getCategorizedHierarchy fuel (f <$> l)
  = Returns (mapForest f <$> forest).
Proof.
  intros Hsame. unfold getCategorizedHierarchy.
  rewrite (groupByCategory_fmap _ _ Hsame).
  destruct (groupByCategory l) as [g|]; [|done]. simpl.
  assert (Hbuilt :
    (λ bucket, buildHierarchy fuel bucket Null) <$> (fmap (M:=list) f <$> g)
    = fmap (mapForest f)
        <$> ((λ bucket, buildHierarchy fuel bucket Null) <$> g)).
  { rewrite <- !map_fmap_compose. apply map_fmap_ext. intros c bucket _.
    simpl. by apply buildHierarchy_fmap. }
  rewrite Hbuilt. case_decide as Hall; [|done]. intros [= <-].
  rewrite decide_True.
  - f_equal. apply map_eq. intros c.
    rewrite lookup_fmap, !lookup_omap, !lookup_fmap.
    destruct (g !! c) as [bucket|]; [|done]. simpl.
    by destruct (buildHierarchy fuel bucket Null).
  - apply map_Forall_lookup. intros c r. rewrite lookup_fmap.
    destruct (_ !! c) as [r0|] eqn:Hr0; [|done]. simpl. intros [= <-].
    apply fmap_is_Some. by apply (map_Forall_lookup_1 _ _ _ _ Hall Hr0).
Qed.

Lemma statusPatch_sameContent now key st row :
  sameContent row (statusPatch now key st row).
Proof.
  unfold statusPatch. case_decide;
    [apply applyUpdate_sameContent|apply sameContent_refl].
Qed.

(** A status change never reshapes the tree view: built again from the
    rows as [updateStatus] leaves them, the categorized hierarchy has
    the same buckets, the same nesting and the same order as before;
    only [status] and [publishedAt] of the article with the given id
    differ.  When the update fails it is the very same forest. *)
Theorem status_change_keeps_tree now key st table table' returned fuel forest :
  updateStatus now key st table = (table', returned) →
  getCategorizedHierarchy fuel table = Returns forest →
  (is_Some returned →
   getCategorizedHierarchy fuel table'
   = Returns (mapForest (statusPatch now key st) <$> forest)) ∧
  (returned = None → getCategorizedHierarchy fuel table' = Returns forest).
Proof.
  unfold updateStatus, updateById. intros Hupd Hf.
  destruct (filter (λ r, id r = key) table) as [|hit [|? ?]];
    injection Hupd as <- <-; (split; [|done]); try by intros [? ?].
  intros _.
  apply (getCategorizedHierarchy_fmap (statusPatch now key st) _ _ _
           (statusPatch_sameContent now key st) Hf).
Qed.

Lemma status_change_keeps_tree_witness :
  ∃ forest,
    getCategorizedHierarchy 3 statusTable = Returns forest ∧
    getCategorizedHierarchy 3 (updateStatus 99 "2" published statusTable).1
    = Returns (mapForest (statusPatch 99 "2" published) <$> forest).
Proof.
  assert (Hall : ∀ forest,
    getCategorizedHierarchy 3 statusTable = Returns forest →
    getCategorizedHierarchy 3 (updateStatus 99 "2" published statusTable).1
    = Returns (mapForest (statusPatch 99 "2" published) <$> forest)).
  { intros forest Hf.
    apply (status_change_keeps_tree 99 "2" published statusTable
             (updateStatus 99 "2" published statusTable).1
             (updateStatus 99 "2" published statusTable).2 3 forest
             (surjective_pairing _) Hf).
    vm_compute. by eexists. }
  eexists. split; [vm_compute; reflexivity|].
  apply Hall. vm_compute. reflexivity.
Defined.

(** ** The table view: the page after a change *)

Section PageAfterChange.
Context (toLowerCase : string → string).


End PageAfterChange.

